(** * mcp-noteshub: session cache, retrieval router, deduplicator, segmenter

    A shallow embedding of [mcp-server/main.py], [mcp-server/utils/rag_helper.py],
    [mcp-server/utils/unstructured_helper.py],
    [mcp-server/resources/markdown_loader.py] and [mcp-server/sample.py],
    followed by the properties of the specification that are settled against
    it and by further properties of the code.

    Python values are modelled as follows.
    - [str] is a list of Unicode code points ([N]); literals of the source are
      written with [py "..."] (ASCII) or with explicit code points.
    - [str | None] is [option str]; Python truthiness is [truthy].
    - [dict] keyed by strings is a [gmap]; [set] of indices is a [gset nat].
    - [float] is the kernel's binary64 [PrimFloat.float].
    - an exception is a value of [exn]; a call that may raise returns a sum. *)

From Stdlib Require Import ZArith NArith Lia PrimFloat Uint63 Ascii String.
From stdpp Require Import gmap list strings.

Local Open Scope list_scope.

(** ** Python strings *)

Module PyStr.

Abbreviation codepoint := N (only parsing).
Abbreviation str := (list N) (only parsing).

(** ASCII literal of the source as a code point list. *)
Definition py (s : string) : str :=
  (fun a : ascii => N_of_ascii a) <$> list_ascii_of_string s.

(** [bool(x)] for [x : str | None]: [None] and [''] are falsy. *)
Definition truthy (x : option str) : bool :=
  match x with
  | None => false
  | Some [] => false
  | Some (_ :: _) => true
  end.

(** [x or d] for [x : str | None] and a string [d]. *)
Definition or_else (x : option str) (d : str) : str :=
  match x with
  | Some (c :: s) => c :: s
  | _ => d
  end.

(** [str.isspace] on one code point (CPython's [_PyUnicode_IsWhitespace]). *)
Definition isspace (c : codepoint) : bool :=
  ((9 <=? c) && (c <=? 13) || (28 <=? c) && (c <=? 32)
   || (c =? 133) || (c =? 160) || (c =? 5760)
   || (8192 <=? c) && (c <=? 8202)
   || (c =? 8232) || (c =? 8233) || (c =? 8239) || (c =? 8287)
   || (c =? 12288))%N.

Fixpoint lstrip (s : str) : str :=
  match s with
  | [] => []
  | c :: t => if isspace c then lstrip t else s
  end.

Definition rstrip (s : str) : str := rev (lstrip (rev s)).

(** [s.strip()] *)
Definition strip (s : str) : str := rstrip (lstrip s).

(** [s.split()]: maximal runs of non-whitespace, in order.  [cur] is the
    word being read, reversed. *)
Fixpoint split_go (cur : str) (s : str) : list str :=
  match s with
  | [] => match cur with [] => [] | _ => [rev cur] end
  | c :: t =>
      if isspace c
      then match cur with
           | [] => split_go [] t
           | _ => rev cur :: split_go [] t
           end
      else split_go (c :: cur) t
  end.

Definition split (s : str) : list str := split_go [] s.

(** [sep.join(parts)] *)
Fixpoint join (sep : str) (parts : list str) : str :=
  match parts with
  | [] => []
  | [p] => p
  | p :: rest => p ++ sep ++ join sep rest
  end.

Definition str_eqb (a b : str) : bool := bool_decide (a = b).

(** [s.endswith(suf)] *)
Definition endswith (s suf : str) : bool :=
  str_eqb (drop (length s - length suf) s) suf && (length suf <=? length s).

(** [s.startswith(pre)] *)
Definition startswith (s pre : str) : bool := str_eqb (take (length pre) s) pre.

(** [len(s)] as a Python int. *)
Definition len {A} (l : list A) : Z := Z.of_nat (length l).

(** [l.index(x)]: position of the first element equal to [x]; [None] stands
    for the [ValueError] Python raises when there is none. *)
Fixpoint index (x : str) (l : list str) : option nat :=
  match l with
  | [] => None
  | y :: t => if str_eqb y x then Some 0 else S <$> index x t
  end.

Definition newline : str := [10%N].

End PyStr.

Import PyStr.

(** ** difflib.SequenceMatcher (Python standard library)

    [rag_helper.is_similar] calls [SequenceMatcher(None, a, b).ratio()].  The
    model follows CPython's [Lib/difflib.py] for [isjunk=None] and
    [autojunk=True]: the junk set is empty, and when [b] has 200 elements or
    more the elements that occur more than [len(b) // 100 + 1] times are
    dropped from [b2j]. *)

Module Difflib.

(** Positions of [elt] in [b], increasing, counted from [off]. *)
Fixpoint indices_from (off : nat) (elt : codepoint) (b : str) : list nat :=
  match b with
  | [] => []
  | c :: t =>
      if (c =? elt)%N then off :: indices_from (S off) elt t
      else indices_from (S off) elt t
  end.

Definition is_popular (b : str) (elt : codepoint) : bool :=
  (200 <=? length b) && (length b / 100 + 1 <? length (indices_from 0 elt b)).

(** [b2j.get(elt, [])] after [__chain_b]. *)
Definition b2j (b : str) (elt : codepoint) : list nat :=
  if is_popular b elt then [] else indices_from 0 elt b.

Record Match := { m_a : nat; m_b : nat; m_size : nat }.

(** [j2len.get(j - 1, 0)] *)
Definition j2len_prev (j2len : gmap nat nat) (j : nat) : nat :=
  match j with
  | 0 => 0
  | S j' => default 0 (j2len !! j')
  end.

(** The loop [for j in b2j.get(a[i], nothing)] of [find_longest_match]. *)
Fixpoint scan_js (js : list nat) (i blo bhi : nat)
    (j2len newj2len : gmap nat nat) (best : Match) : gmap nat nat * Match :=
  match js with
  | [] => (newj2len, best)
  | j :: rest =>
      if j <? blo then scan_js rest i blo bhi j2len newj2len best
      else if bhi <=? j then (newj2len, best)
      else
        let k := j2len_prev j2len j + 1 in
        let best' :=
          if m_size best <? k
          then {| m_a := i + 1 - k; m_b := j + 1 - k; m_size := k |}
          else best in
        scan_js rest i blo bhi j2len (<[j := k]> newj2len) best'
  end.

(** The loop [for i in range(alo, ahi)]. *)
Fixpoint scan_is (a b : str) (idxs : list nat) (blo bhi : nat)
    (j2len : gmap nat nat) (best : Match) : Match :=
  match idxs with
  | [] => best
  | i :: rest =>
      let js := match a !! i with Some x => b2j b x | None => [] end in
      let '(newj2len, best') := scan_js js i blo bhi j2len ∅ best in
      scan_is a b rest blo bhi newj2len best'
  end.

Definition same_elt (a b : str) (i j : nat) : bool :=
  match a !! i, b !! j with
  | Some x, Some y => (x =? y)%N
  | _, _ => false
  end.

(** First extension loop: grow the match to the left. *)
Fixpoint extend_left (a b : str) (alo blo besti bestj bestsize : nat) : Match :=
  match besti, bestj with
  | S i', S j' =>
      if (alo <? besti) && (blo <? bestj) && same_elt a b i' j'
      then extend_left a b alo blo i' j' (S bestsize)
      else {| m_a := besti; m_b := bestj; m_size := bestsize |}
  | _, _ => {| m_a := besti; m_b := bestj; m_size := bestsize |}
  end.

(** Second extension loop: grow the match to the right; [room] is
    [ahi - (besti + bestsize)]. *)
Fixpoint extend_right (a b : str) (bhi : nat) (room : nat) (m : Match) : Match :=
  match room with
  | 0 => m
  | S room' =>
      if (m_b m + m_size m <? bhi)
         && same_elt a b (m_a m + m_size m) (m_b m + m_size m)
      then extend_right a b bhi room'
             {| m_a := m_a m; m_b := m_b m; m_size := S (m_size m) |}
      else m
  end.

(** [find_longest_match(alo, ahi, blo, bhi)].  The two loops that extend the
    match over junk never run: [bjunk] is empty. *)
Definition find_longest_match (a b : str) (alo ahi blo bhi : nat) : Match :=
  let best0 := {| m_a := alo; m_b := blo; m_size := 0 |} in
  let best1 := scan_is a b (seq alo (ahi - alo)) blo bhi ∅ best0 in
  let best2 := extend_left a b alo blo (m_a best1) (m_b best1) (m_size best1) in
  extend_right a b bhi (ahi - (m_a best2 + m_size best2)) best2.

(** The work loop of [get_matching_blocks]; [queue] is used as a stack
    ([queue.pop()] takes the last pushed range, kept at the head here). *)
Fixpoint blocks_loop (fuel : nat) (a b : str)
    (queue : list (nat * nat * nat * nat)) (acc : list Match) : list Match :=
  match fuel with
  | 0 => acc
  | S fuel' =>
      match queue with
      | [] => acc
      | (alo, ahi, blo, bhi) :: queue' =>
          let x := find_longest_match a b alo ahi blo bhi in
          let i := m_a x in let j := m_b x in let k := m_size x in
          if k =? 0 then blocks_loop fuel' a b queue' acc
          else
            let q1 := if (alo <? i) && (blo <? j)
                      then (alo, i, blo, j) :: queue' else queue' in
            let q2 := if (i + k <? ahi) && (j + k <? bhi)
                      then (i + k, ahi, j + k, bhi) :: q1 else q1 in
            blocks_loop fuel' a b q2 (acc ++ [x])
      end
  end.

(** Blocks found by [get_matching_blocks] before sorting and merging of
    adjacent blocks, which leave the sum of the sizes unchanged.  Every
    round either closes a range or removes an element of [a] and of [b]
    from the ranges, so [2 * (len a + len b) + 1] rounds are enough. *)
Definition matching_blocks (a b : str) : list Match :=
  blocks_loop (2 * (length a + length b) + 1) a b
    [(0, length a, 0, length b)] [].

Definition float_of_nat (n : nat) : float :=
  PrimFloat.of_uint63 (Uint63.of_Z (Z.of_nat n)).

(** [_calculate_ratio(matches, length)] *)
Definition calculate_ratio (matches length : nat) : float :=
  match length with
  | 0 => 1%float
  | _ => PrimFloat.div (PrimFloat.mul 2%float (float_of_nat matches))
           (float_of_nat length)
  end.

(** [SequenceMatcher(None, a, b).ratio()] *)
Definition ratio (a b : str) : float :=
  calculate_ratio (foldr (fun m s => m_size m + s) 0 (matching_blocks a b))
    (length a + length b).

End Difflib.

(** ** Exceptions and the collaborators outside the repository *)

Module World.

(** A raised exception.  The three first constructors are the exceptions
    the repository raises itself, at its own [raise] statements;
    [External] is whatever escapes a collaborator (parser, vector index,
    file system), with its [str(e)]. *)
Inductive exn :=
| ValueError (msg : str)
| FileNotFoundError (msg : str)
| RuntimeError (msg : str)
| External (msg : str).

(** [str(e)] *)
Definition exn_str (e : exn) : str :=
  match e with
  | ValueError m | FileNotFoundError m | RuntimeError m | External m => m
  end.

(** One parsed element of the [unstructured] library: [el.text] and
    [type(el).__name__]. *)
Record Element := { el_text : option str; el_type : str }.

Inductive Parser :=
| PartitionPdf | PartitionDocx | PartitionText | PartitionMd | PartitionHtml
| PartitionAuto.

(** The libraries and the file system the code calls, over a state [W] of
    the outside world (note files, persisted vector store).  [Store] is a
    handle on a Chroma vector store.  A call that fails gives the [str(e)]
    of what it raised. *)
Record Env (W Store : Type) := {
  (** [str(NOTES_DIR)] *)
  notes_dir : str;
  (** [str(NOTES_DIR / name)] *)
  notes_path : str -> str;
  (** [(NOTES_DIR / name).exists()] *)
  note_exists : W -> str -> bool;
  (** [Path(file_path).exists()] *)
  path_exists : W -> str -> bool;
  (** [os.listdir(NOTES_DIR)] *)
  listdir_notes : W -> str + list str;
  (** [Path(p).suffix] *)
  path_suffix : str -> str;
  (** [s.lower()] *)
  str_lower : str -> str;
  (** [c.isalnum()], which with ['_'] makes the class [\w] of [re] *)
  isalnum : codepoint -> bool;
  (** [partition_pdf(filename=p)] and its siblings *)
  run_parser : Parser -> W -> str -> str + list Element;
  (** page contents of
      [RecursiveCharacterTextSplitter(chunk_size, chunk_overlap).create_documents([text])] *)
  split_text : nat -> nat -> str -> list str;
  (** [os.makedirs(VECTOR_DIR, exist_ok=True)] *)
  makedirs_vector_dir : W -> W * (str + unit);
  (** [Chroma.from_documents(docs, embedding_model, persist_directory=...)] *)
  chroma_from_documents : W -> list str -> W * (str + Store);
  (** page contents of
      [store.as_retriever(search_kwargs={"k": k}).invoke(topic)] *)
  retriever_invoke : W -> Store -> str -> Z -> W * (str + list str)
}.

Arguments notes_dir {W Store}.
Arguments notes_path {W Store}.
Arguments note_exists {W Store}.
Arguments path_exists {W Store}.
Arguments listdir_notes {W Store}.
Arguments path_suffix {W Store}.
Arguments str_lower {W Store}.
Arguments isalnum {W Store}.
Arguments run_parser {W Store}.
Arguments split_text {W Store}.
Arguments makedirs_vector_dir {W Store}.
Arguments chroma_from_documents {W Store}.
Arguments retriever_invoke {W Store}.

(** Computations that read and change the outside world and may raise. *)
Definition M (W A : Type) : Type := W -> W * (exn + A).

Definition ret {W A} (x : A) : M W A := fun w => (w, inr x).
Definition raise {W A} (e : exn) : M W A := fun w => (w, inl e).
Definition bind {W A B} (m : M W A) (k : A -> M W B) : M W B :=
  fun w => match m w with
           | (w', inl e) => (w', inl e)
           | (w', inr x) => k x w'
           end.
(** The outcome of a collaborator as the caller sees it. *)
Definition external {A} (x : str + A) : exn + A :=
  match x with
  | inl m => inl (External m)
  | inr a => inr a
  end.
(** A call of a collaborator that reads the world and leaves it as it is. *)
Definition reading {W A} (f : W -> str + A) : M W A :=
  fun w => (w, external (f w)).
(** A call of a collaborator that may change the world. *)
Definition calling {W A} (f : W -> W * (str + A)) : M W A :=
  fun w => (fst (f w), external (snd (f w))).
(** [try: m  except Exception as e: h(e)] *)
Definition try_except {W A} (m : M W A) (h : exn -> M W A) : M W A :=
  fun w => match m w with
           | (w', inl e) => h e w'
           | (w', inr x) => (w', inr x)
           end.

Declare Scope py_scope.
Delimit Scope py_scope with py.
Notation "x <- m ;; k" := (bind m (fun x => k))
  (at level 100, m at next level, right associativity) : py_scope.
Notation "m ;;; k" := (bind m (fun _ => k))
  (at level 100, right associativity) : py_scope.

End World.

Import World.

(** ** rag_helper.py *)

Module RagHelper.

(** *** Semantic deduplication *)

(** [is_similar(a, b, threshold)] *)
Definition is_similar (a b : str) (threshold : float) : bool :=
  PrimFloat.ltb threshold (Difflib.ratio a b).

(** The [for chunk in chunks] loop of [deduplicate_semantic]; [unique] is
    the accumulator. *)
Fixpoint dedup_loop (chunks unique : list str) (threshold : float) : list str :=
  match chunks with
  | [] => unique
  | chunk :: rest =>
      if existsb (fun u => is_similar chunk u threshold) unique
      then dedup_loop rest unique threshold
      else dedup_loop rest (unique ++ [chunk]) threshold
  end.

Definition default_threshold : float := 0x1.ccccccccccccdp-1%float.

(** [deduplicate_semantic(chunks, threshold=0.9)] *)
Definition deduplicate_semantic (chunks : list str) (threshold : float) : list str :=
  dedup_loop chunks [] threshold.

(** *** The retrieval router *)

Local Open Scope py_scope.

Section Router.
Context {W Store : Type} (env : Env W Store).

Definition dot_pdf : str := Eval cbv in py ".pdf".
Definition dot_docx : str := Eval cbv in py ".docx".
Definition dot_txt : str := Eval cbv in py ".txt".
Definition dot_md : str := Eval cbv in py ".md".
Definition dot_html : str := Eval cbv in py ".html".

(** The [if]/[elif] chain of [safe_partition] on the lowered suffix. *)
Definition parser_for (ext : str) : Parser :=
  if str_eqb ext dot_pdf then PartitionPdf
  else if str_eqb ext dot_docx then PartitionDocx
  else if str_eqb ext dot_txt then PartitionText
  else if str_eqb ext dot_md then PartitionMd
  else if str_eqb ext dot_html then PartitionHtml
  else PartitionAuto.

(** [safe_partition(file_path)]: any failure of the parser is raised again
    as [RuntimeError(f"Error parsing {file_path}: {e}")]. *)
Definition safe_partition (file_path : str) : M W (list Element) :=
  let ext := str_lower env (path_suffix env file_path) in
  try_except
    (reading (fun w => run_parser env (parser_for ext) w file_path))
    (fun e => raise (RuntimeError
               (py "Error parsing " ++ file_path ++ py ": " ++ exn_str e))).

Definition not_found_msg (file_name : str) : str :=
  py "File '" ++ file_name ++ py "' not found in " ++ notes_dir env.

(** ["\n".join([el.text.strip() for el in elements if getattr(el, "text", None)])] *)
Definition joined_text (elements : list Element) : str :=
  join newline
    (omap (fun el => if truthy (el_text el)
                     then Some (strip (default [] (el_text el)))
                     else None) elements).

(** [build_vectorstore(file_name)] *)
Definition build_vectorstore (file_name : str) : M W Store :=
  fun w =>
    if negb (note_exists env w file_name)
    then raise (FileNotFoundError (not_found_msg file_name)) w
    else
      (elements <- safe_partition (notes_path env file_name) ;;
       let text := joined_text elements in
       let docs := split_text env 2500 100 text in
       calling (makedirs_vector_dir env) ;;;
       calling (fun w' => chroma_from_documents env w' docs)) w.

(** [[d.page_content.strip() for d in docs if d.page_content.strip()]] *)
Definition stripped_nonempty (docs : list str) : list str :=
  omap (fun d => match strip d with [] => None | c => Some c end) docs.

(** [list(dict.fromkeys(l))]: the first occurrence of each chunk, in
    order.  [seen] holds the keys already in the dict. *)
Fixpoint fromkeys_loop (l seen : list str) : list str :=
  match l with
  | [] => seen
  | x :: rest =>
      if bool_decide (x ∈ seen) then fromkeys_loop rest seen
      else fromkeys_loop rest (seen ++ [x])
  end.

Definition dict_fromkeys (l : list str) : list str := fromkeys_loop l [].

Record RetrievalResult := {
  mode : str;
  file : option str;
  topic : option str;
  total_chunks : nat;
  context_chunks : list str
}.

Definition supported_suffixes : list str :=
  [dot_pdf; dot_docx; dot_txt; dot_md; dot_html].

(** [file.endswith(('.pdf', '.docx', '.txt', '.md', '.html'))] *)
Definition is_supported (file : str) : bool :=
  existsb (endswith file) supported_suffixes.

(** The body of the [try] of the topic-only loop, for one file. *)
Definition retrieve_from (file : str) (topic : str) (k : Z) : M W (list str) :=
  vectorstore <- build_vectorstore file ;;
  retrieved_docs <- calling (fun w => retriever_invoke env w vectorstore topic k) ;;
  ret (stripped_nonempty retrieved_docs).

(** The loop [for file in os.listdir(NOTES_DIR)] of the topic-only case;
    [all_chunks] is extended only when the whole [try] body succeeded, and
    a failure is printed and dropped. *)
Fixpoint topic_loop (files : list str) (topic : str) (k : Z)
    (all_chunks : list str) : M W (list str) :=
  match files with
  | [] => ret all_chunks
  | file :: rest =>
      if negb (is_supported file) then topic_loop rest topic k all_chunks
      else
        all_chunks' <-
          try_except
            (found <- retrieve_from file topic k ;; ret (all_chunks ++ found))
            (fun _ => ret all_chunks) ;;
        topic_loop rest topic k all_chunks'
  end.

(** U+274C, then the text of the message. *)
Definition invalid_query_msg : str :=
  10060%N :: py " Please provide at least a file name or a topic.".

Definition mode_file_only : str := Eval cbv in py "file_only".
Definition mode_topic_only : str := Eval cbv in py "topic_only".
Definition mode_file_and_topic : str := Eval cbv in py "file_and_topic".

(** [get_relevant_chunks(file_name, topic, k)] *)
Definition get_relevant_chunks (file_name topic : option str) (k : Z)
    : M W RetrievalResult :=
  if negb (truthy file_name) && negb (truthy topic)
  then raise (ValueError invalid_query_msg)
  else if truthy file_name && negb (truthy topic)
  then
    let name := default [] file_name in
    fun w =>
      if negb (note_exists env w name)
      then raise (FileNotFoundError (not_found_msg name)) w
      else
        (elements <- safe_partition (notes_path env name) ;;
         let text := joined_text elements in
         let docs := split_text env 1000 50 text in
         let chunks := stripped_nonempty docs in
         ret {| mode := mode_file_only; file := file_name; topic := None;
                total_chunks := length chunks; context_chunks := chunks |}) w
  else if truthy topic && negb (truthy file_name)
  then
    let tp := default [] topic in
    files <- reading (listdir_notes env) ;;
    all_chunks <- topic_loop files tp k [] ;;
    let chunks := dict_fromkeys all_chunks in
    ret {| mode := mode_topic_only; file := None; topic := topic;
           total_chunks := length chunks; context_chunks := chunks |}
  else
    let name := default [] file_name in
    let tp := default [] topic in
    vectorstore <- build_vectorstore name ;;
    retrieved_docs <- calling (fun w => retriever_invoke env w vectorstore tp k) ;;
    let chunks := stripped_nonempty retrieved_docs in
    let chunks := deduplicate_semantic chunks default_threshold in
    ret {| mode := mode_file_and_topic; file := file_name; topic := topic;
           total_chunks := length chunks; context_chunks := chunks |}.

End Router.

End RagHelper.


(** ** main.py: the session cache *)

Module Main.

Import RagHelper.

(** A JSON value of a response. *)
Inductive jvalue :=
| JNone
| JStr (s : str)
| JInt (z : Z).

Definition of_opt (x : option str) : jvalue :=
  match x with
  | None => JNone
  | Some s => JStr s
  end.

(** A response: the dict the handler returns, in the order it is written. *)
Abbreviation response := (list (string * jvalue)) (only parsing).

(** [resp.get(key)] *)
Fixpoint resp_get (key : string) (resp : response) : option jvalue :=
  match resp with
  | [] => None
  | (k, v) :: rest => if String.eqb k key then Some v else resp_get key rest
  end.

(** One entry of [chunk_cache]. *)
Record Session := {
  s_file : option str;
  s_topic : option str;
  s_chunks : list str;
  s_served : gset nat;
  s_mode : str
}.

(** [session["served"].add(i)] *)
Definition mark_served (i : nat) (s : Session) : Session :=
  {| s_file := s_file s; s_topic := s_topic s; s_chunks := s_chunks s;
     s_served := {[ i ]} ∪ s_served s; s_mode := s_mode s |}.

Definition none_s : str := Eval cbv in py "none".
Definition sep_s : str := Eval cbv in py "::".
Definition star_s : str := Eval cbv in py "*".

(** [cache_key = f"{file or 'none'}::{topic or 'none'}"] *)
Definition cache_key (file topic : option str) : str :=
  or_else file none_s ++ sep_s ++ or_else topic none_s.

(** [[c for i, c in enumerate(chunks) if i not in served]], with
    [enumerate] counting from [i]. *)
Fixpoint remaining_from (i : nat) (chunks : list str) (served : gset nat)
    : list str :=
  match chunks with
  | [] => []
  | c :: rest =>
      if bool_decide (i ∈ served) then remaining_from (S i) rest served
      else c :: remaining_from (S i) rest served
  end.

Definition remaining_of (s : Session) : list str :=
  remaining_from 0 (s_chunks s) (s_served s).

(** [random.choice(seq)] on the non-empty sequence [x :: l]; [r] is the
    number the generator draws, and every position of the sequence is
    reached by some [r]. *)
Definition choice (r : nat) (x : str) (l : list str) : str :=
  nth (r mod S (length l)) (x :: l) x.

(** The messages, with the code points of their leading emoji. *)
Definition msg_cleared : str :=
  129529%N :: py " All chunks served. Cache cleared.".
Definition msg_served : str := 9989%N :: py " Served from cache.".
Definition msg_empty : str :=
  9888%N :: 65039%N :: py " No relevant chunks found.".
Definition msg_created : str :=
  127381%N :: py " Cache created and first chunk served.".
Definition msg_clear_done (file topic : option str) : str :=
  129529%N :: py " Cache cleared for query (" ++ or_else file star_s
    ++ py ", " ++ or_else topic star_s ++ py ")".
Definition msg_clear_none : str := Eval cbv in py "No cache found to clear.".
Definition msg_stopped : str :=
  128721%N :: py " Session stopped and cache cleared.".
Definition msg_stop_none : str := Eval cbv in py "No active session to stop.".

(** What [list.index] raises when the value is missing. *)
Definition index_error : exn := ValueError (py "list.index(x): x not in list").

Section Handlers.
Context {W Store : Type} (env : Env W Store).

(** [get_chunk(file, topic)].  [r] is the draw of [random.choice]; the
    result is the response (or the exception that leaves the handler),
    the new [chunk_cache] and the new outside world. *)
Definition get_chunk (r : nat) (file topic : option str)
    (chunk_cache : gmap (list N) Session) (w : W)
    : (exn + response) * gmap (list N) Session * W :=
  let cache_key := cache_key file topic in
  match chunk_cache !! cache_key with
  | Some session =>
      match remaining_of session with
      | [] =>
          (inr [("message"%string, JStr msg_cleared)],
           delete cache_key chunk_cache, w)
      | c0 :: rest =>
          let chunk := choice r c0 rest in
          match index chunk (s_chunks session) with
          | None => (inl index_error, chunk_cache, w)
          | Some chunk_index =>
              (inr [("mode"%string, JStr (s_mode session));
                    ("file"%string, of_opt (s_file session));
                    ("topic"%string, of_opt (s_topic session));
                    ("chunk_index"%string, JInt (Z.of_nat chunk_index + 1));
                    ("chunk"%string, JStr chunk);
                    ("remaining"%string, JInt (len (c0 :: rest) - 1));
                    ("message"%string, JStr msg_served)],
               <[cache_key := mark_served chunk_index session]> chunk_cache,
               w)
          end
      end
  | None =>
      match get_relevant_chunks env file topic 5 w with
      | (w', inl e) =>
          (inr [("error"%string, JStr (exn_str e))], chunk_cache, w')
      | (w', inr result) =>
          match context_chunks result with
          | [] =>
              (inr [("message"%string, JStr msg_empty);
                    ("mode"%string, JStr (mode result))],
               chunk_cache, w')
          | c0 :: rest =>
              let chunks := c0 :: rest in
              let cache1 :=
                <[cache_key := {| s_file := file; s_topic := topic;
                                  s_chunks := chunks; s_served := ∅;
                                  s_mode := mode result |}]> chunk_cache in
              let first_chunk := choice r c0 rest in
              match index first_chunk chunks with
              | None =>
                  (inr [("error"%string, JStr (exn_str index_error))],
                   cache1, w')
              | Some i =>
                  (inr [("mode"%string, JStr (mode result));
                        ("file"%string, of_opt file);
                        ("topic"%string, of_opt topic);
                        ("chunk"%string, JStr first_chunk);
                        ("remaining"%string, JInt (len chunks - 1));
                        ("message"%string, JStr msg_created)],
                   alter (mark_served i) cache_key cache1, w')
              end
          end
      end
  end.

End Handlers.

(** [clear_cache(file, topic)] *)
Definition clear_cache (file topic : option str)
    (chunk_cache : gmap (list N) Session)
    : response * gmap (list N) Session :=
  let cache_key := cache_key file topic in
  match chunk_cache !! cache_key with
  | Some _ =>
      ([("message"%string, JStr (msg_clear_done file topic))],
       delete cache_key chunk_cache)
  | None => ([("message"%string, JStr msg_clear_none)], chunk_cache)
  end.

(** [stop_session(file, topic)] *)
Definition stop_session (file topic : option str)
    (chunk_cache : gmap (list N) Session)
    : response * gmap (list N) Session :=
  let cache_key := cache_key file topic in
  match chunk_cache !! cache_key with
  | Some _ =>
      ([("message"%string, JStr msg_stopped)], delete cache_key chunk_cache)
  | None => ([("message"%string, JStr msg_stop_none)], chunk_cache)
  end.

End Main.

(** ** unstructured_helper.py: the context-aware chunker *)

Module UnstructuredHelper.

Definition colon : codepoint := 58%N.
Definition title_s : str := Eval cbv in py "Title".
Definition list_item_s : str := Eval cbv in py "ListItem".

(** The position before which [$] matches: the end of the string or the
    newline that ends it.  [ends_in p s] is [re.search(r"[p]$", s)] for a
    class [p] of single characters. *)
Definition ends_in (p : codepoint -> bool) (s : str) : bool :=
  match rev s with
  | c :: rest =>
      p c || ((c =? 10)%N && match rest with d :: _ => p d | [] => false end)
  | [] => false
  end.

(** [re.search(r":$", s)] *)
Definition re_colon_end (s : str) : bool := ends_in (fun c => (c =? colon)%N) s.

(** [re.search(r"[.!?]$", s)] *)
Definition re_sentence_end (s : str) : bool :=
  ends_in (fun c => (c =? 46)%N || (c =? 33)%N || (c =? 63)%N) s.

Section Chunker.
Context {W Store : Type} (env : Env W Store).

(** The class [\w] *)
Definition is_word (c : codepoint) : bool := isalnum env c || (c =? 95)%N.

(** [\w+:] at the start of [s]; [seen] tells that a word character was
    read. *)
Fixpoint word_colon (seen : bool) (s : str) : bool :=
  match s with
  | [] => false
  | c :: t =>
      if is_word c then word_colon true t
      else seen && (c =? colon)%N
  end.

(** [re.match(r"^[-•]|\w+:", s)]: a leading hyphen or bullet (U+2022), or
    a leading word followed by a colon. *)
Definition re_list_like (s : str) : bool :=
  match s with
  | c :: _ => (c =? 45)%N || (c =? 8226)%N || word_colon false s
  | [] => false
  end.

Definition aux_verbs : list str :=
  Eval cbv in
    map py ["is"; "are"; "was"; "were"; "has"; "have"; "can"; "should";
            "will"; "be"]%string.

(** [\b] between [prev] (the character before the position, if any) and
    the rest [s] of the string. *)
Definition boundary (prev : option codepoint) (s : str) : bool :=
  xorb (from_option is_word false prev) (from_option is_word false (head s)).

(** One of the verbs starts at the head of [s], between two [\b]. *)
Definition verb_here (prev : option codepoint) (s : str) : bool :=
  boundary prev s
  && existsb (fun v => startswith s v
                       && boundary (last v) (drop (length v) s)) aux_verbs.

(** [re.search(r"\b(is|are|...|be)\b", s)], [prev] being the character
    before [s]. *)
Fixpoint verb_from (prev : option codepoint) (s : str) : bool :=
  verb_here prev s
  || match s with
     | [] => false
     | c :: t => verb_from (Some c) t
     end.

Definition re_aux_verb (s : str) : bool := verb_from None s.

(** [len(s.split())] *)
Definition words (s : str) : Z := len (split s).

(** [(el.text or "").strip()] *)
Definition stripped_text (el : Element) : str :=
  strip (or_else (el_text el) []).

(** The inner [while j < len(elements)] of the lead-in case, started at
    the elements after the lead-in: the texts merged, and the elements
    from position [j] on when the loop ends. *)
Fixpoint lookahead (els : list Element) : list str * list Element :=
  match els with
  | [] => ([], [])
  | nxt :: tl =>
      let nxt_text := stripped_text nxt in
      match nxt_text with
      | [] => lookahead tl
      | _ =>
          if str_eqb (el_type nxt) title_s || (60 <? words nxt_text)%Z
          then ([], els)
          else if str_eqb (el_type nxt) list_item_s || re_list_like nxt_text
          then let '(texts, after) := lookahead tl in
               (nxt_text :: texts, after)
          else ([], els)
      end
  end.

(** [is_fragment] *)
Definition is_fragment (text : str) : bool :=
  (words text <? 8)%Z
  && negb (re_sentence_end text)
  && negb (re_aux_verb (str_lower env text)).

(** The variables of the loop. *)
Record State := {
  chunks : list str;
  current_chunk : str;
  current_type : option str
}.

(** [chunks[-1] += "\n" + text] *)
Definition append_to_last (chunks : list str) (text : str) : list str :=
  match rev chunks with
  | [] => chunks
  | lst :: before => rev before ++ [lst ++ newline ++ text]
  end.

(** The condition that closes the chunk in progress. *)
Definition must_split (max_chars : Z) (st : State) (text el_type : str) : bool :=
  (max_chars <? len (current_chunk st) + len text)%Z
  || str_eqb el_type title_s
  || (truthy (current_type st)
      && negb (bool_decide (Some el_type = current_type st))
      && (0 <? len (current_chunk st))%Z).

(** Case 1 of the loop, for an element with text [text] followed by the
    elements [rest]: the text with the lines merged into it, and the
    elements the loop goes on with ([i = j - 1] when lines were merged, [i]
    as it was otherwise; the round ends with [i += 1]). *)
Definition lead_in (text : str) (rest : list Element) : str * list Element :=
  if re_colon_end (strip text) && (words text <? 30)%Z
  then
    match lookahead rest with
    | ([], _) => (text, rest)
    | (lookahead_texts, after) =>
        (text ++ newline ++ join newline lookahead_texts, after)
    end
  else (text, rest).

(** One round of the outer [while i < len(elements)] on the elements from
    position [i] on: the new variables and the elements from the new [i]
    on. *)
Definition step (max_chars : Z) (el : Element) (rest : list Element)
    (st : State) : State * list Element :=
  let text := stripped_text el in
  match text with
  | [] => (st, rest)
  | _ =>
      let el_type := el_type el in
      let '(text, next) := lead_in text rest in
      if is_fragment text && negb (bool_decide (chunks st = []))
      then ({| chunks := append_to_last (chunks st) text;
               current_chunk := current_chunk st;
               current_type := current_type st |}, next)
      else
        let st1 :=
          if must_split max_chars st text el_type
          then {| chunks := chunks st ++ [strip (current_chunk st)];
                  current_chunk := [];
                  current_type := current_type st |}
          else st in
        ({| chunks := chunks st1;
            current_chunk :=
              current_chunk st1
              ++ (match current_chunk st1 with [] => [] | _ => newline end)
              ++ text;
            current_type := Some el_type |}, next)
  end.

(** The outer loop; every round moves at least one element on, so
    [length els] rounds end it. *)
Fixpoint run (fuel : nat) (max_chars : Z) (els : list Element) (st : State)
    : State :=
  match fuel, els with
  | S fuel', el :: rest =>
      let '(st', next) := step max_chars el rest st in
      run fuel' max_chars next st'
  | _, _ => st
  end.

Definition initial : State :=
  {| chunks := []; current_chunk := []; current_type := None |}.

(** The chunks before the last filter: the loop, then the flush of the
    chunk in progress. *)
Definition unfiltered_chunks (elements : list Element) (max_chars : Z)
    : list str :=
  let st := run (length elements) max_chars elements initial in
  match strip (current_chunk st) with
  | [] => chunks st
  | c => chunks st ++ [c]
  end.

(** [len(c.split()) > 5] *)
Definition long_enough (c : str) : bool := (5 <? words c)%Z.

(** The body of [extract_chunks] from the parsed [elements] on. *)
Definition chunk_elements (elements : list Element) (max_chars : Z)
    : list str :=
  filter (fun c => long_enough c = true) (unfiltered_chunks elements max_chars).

Definition missing_file_msg (file_path : str) : str :=
  py "File not found: " ++ file_path.

(** [extract_chunks(file_path, max_chars=1200)] *)
Definition extract_chunks (file_path : str) (max_chars : Z) (w : W)
    : exn + list str :=
  if negb (path_exists env w file_path)
  then inl (FileNotFoundError (missing_file_msg file_path))
  else
    match run_parser env PartitionAuto w file_path with
    | inl m => inl (External m)
    | inr elements => inr (chunk_elements elements max_chars)
    end.

End Chunker.

End UnstructuredHelper.

(** ** A small corpus, to run the handlers on *)

Module Demo.

Import RagHelper Main.

(** The notes directory: file names with the paragraphs a parser finds. *)
Abbreviation world := (list (list N * list (list N))) (only parsing).

Definition lower_cp (c : codepoint) : codepoint :=
  if ((65 <=? c) && (c <=? 90))%N then (c + 32)%N else c.

Definition alnum_cp (c : codepoint) : bool :=
  ((48 <=? c) && (c <=? 57) || (65 <=? c) && (c <=? 90)
   || (97 <=? c) && (c <=? 122))%N.

(** The text up to the first [stop], and what follows it. *)
Fixpoint break_at (stop : codepoint) (s : str) : str * option str :=
  match s with
  | [] => ([], None)
  | c :: t =>
      if (c =? stop)%N then ([], Some t)
      else let '(a, b) := break_at stop t in (c :: a, b)
  end.

(** The extension of a file name: from its last dot on, when there is one
    inside the name. *)
Definition suffix_of (p : str) : str :=
  let name := rev (fst (break_at 47 (rev p))) in
  match break_at 46 (rev name) with
  | (ext_rev, Some (_ :: _)) =>
      match ext_rev with [] => [] | _ => 46%N :: rev ext_rev end
  | _ => []
  end.

Fixpoint lines_go (cur : str) (s : str) : list str :=
  match s with
  | [] => [rev cur]
  | c :: t => if (c =? 10)%N then rev cur :: lines_go [] t
              else lines_go (c :: cur) t
  end.

(** A splitter that keeps a short text whole and cuts a long one at its
    line ends. *)
Definition window_split (chunk_size overlap : nat) (text : str) : list str :=
  match text with
  | [] => []
  | _ => if length text <=? chunk_size then [text] else lines_go [] text
  end.

Definition path_of (name : str) : str := py "notes/" ++ name.

Definition parse (w : world) (p : str) : str + list Element :=
  match list_find (fun note => path_of note.1 = p) w with
  | Some (_, (_, paragraphs)) =>
      inr ((fun t => {| el_text := Some t; el_type := py "NarrativeText" |})
             <$> paragraphs)
  | None => inl (py "cannot read the file")
  end.

(** The vector store of a document is the list of its windows; a query
    returns the first [k] of them; building a store from no window fails,
    as Chroma does. *)
Definition env : Env world (list str) :=
  {| notes_dir := py "notes";
     notes_path := path_of;
     note_exists := fun w name => bool_decide (name ∈ w.*1);
     path_exists := fun w p => bool_decide (p ∈ (fun note => path_of note.1) <$> w);
     listdir_notes := fun w => inr (w.*1);
     path_suffix := suffix_of;
     str_lower := fun s => lower_cp <$> s;
     isalnum := alnum_cp;
     run_parser := fun _ w p => parse w p;
     split_text := window_split;
     makedirs_vector_dir := fun w => (w, inr ());
     chroma_from_documents := fun w docs =>
       (w, match docs with
           | [] => inl (py "no documents to index")
           | _ => inr docs
           end);
     retriever_invoke := fun w store _ k => (w, inr (take (Z.to_nat k) store))
  |}.

Definition corpus : world :=
  [ (py "sets.md", [py "Sets"; py "A set is an unordered collection."]);
    (py "empty.txt", []);
    (py "cover.png", [py "not a note"]);
    (py "graphs.md", [py "Graphs"; py "A graph has vertices and edges."]) ].

Definition sets_text : str :=
  Eval cbv in py "Sets" ++ newline ++ py "A set is an unordered collection.".
Definition graphs_text : str :=
  Eval cbv in py "Graphs" ++ newline ++ py "A graph has vertices and edges.".

End Demo.

(** ** Auxiliary notions used by the statements *)

Module Notions.

Import Main.

(** The strings [none], [none::none], [none::none::none], ... *)
Fixpoint sentinel_chain (n : nat) : str :=
  match n with
  | 0 => none_s
  | S k => none_s ++ sep_s ++ sentinel_chain k
  end.

Import RagHelper.

(** What the documents that answer contribute to a topic-only query, in
    the order of the listing: a file that is not a supported document and
    a document whose index cannot be built or queried contribute
    nothing. *)
Fixpoint answered {W Store} (env : Env W Store) (files : list str)
    (topic : str) (k : Z) (w : W) : list str :=
  match files with
  | [] => []
  | file :: rest =>
      if is_supported file
      then match retrieve_from env file topic k w with
           | (w', inr found) => found ++ answered env rest topic k w'
           | (w', inl _) => answered env rest topic k w'
           end
      else answered env rest topic k w
  end.

(** A session over two equal chunks, the first of them served. *)
Definition twice (file topic : option str) (mode c : str) : Main.Session :=
  {| Main.s_file := file; Main.s_topic := topic; Main.s_chunks := [c; c];
     Main.s_served := {[ 0 ]}; Main.s_mode := mode |}.

(** The characters of a string that are not whitespace, in order. *)
Definition nonspace (s : str) : str := filter (fun c => isspace c = false) s.

(** The non-whitespace characters of a list of chunks, chunk after chunk. *)
Definition chars (l : list str) : str := l ≫= nonspace.

(** The non-whitespace characters of the text of the elements. *)
Definition input_chars (elements : list Element) : str :=
  elements ≫= (fun el => nonspace (or_else (el_text el) [])).

(** The characters held by the variables of the chunker's loop. *)
Definition held (st : UnstructuredHelper.State) : str :=
  chars (UnstructuredHelper.chunks st)
  ++ nonspace (UnstructuredHelper.current_chunk st).

(** The chunks the last filter of [extract_chunks] drops. *)
Definition discarded_chunks {W Store} (env : Env W Store)
    (elements : list Element) (max_chars : Z) : list str :=
  filter (fun c => UnstructuredHelper.long_enough c = false)
    (UnstructuredHelper.unfiltered_chunks env elements max_chars).

End Notions.

(** ** Reading an empty string as an absent parameter *)

Module Echo.

Import Main.

(** [""] read as [None]. *)
Definition absent_if_empty (x : option str) : option str :=
  if truthy x then x else None.

(** [""] read as [null]. *)
Definition read_value (v : jvalue) : jvalue :=
  match v with
  | JStr [] => JNone
  | _ => v
  end.

(** A response, with [""] read as [null] under [file] and [topic]. *)
Definition read_response (resp : list (string * jvalue))
    : list (string * jvalue) :=
  (fun kv : string * jvalue =>
     if String.eqb kv.1 "file" || String.eqb kv.1 "topic"
     then (kv.1, read_value kv.2) else kv) <$> resp.

(** A session, with [""] read as [None] in its [file] and [topic]. *)
Definition read_session (s : Session) : Session :=
  {| s_file := absent_if_empty (s_file s);
     s_topic := absent_if_empty (s_topic s);
     s_chunks := s_chunks s; s_served := s_served s; s_mode := s_mode s |}.

(** What a call of [get_chunk] gives (response, cache, outside world), with
    [""] read as absent in the [file] and [topic] it echoes and stores. *)
Definition read_outcome {W : Type}
    (o : (exn + list (string * jvalue)) * gmap (list N) Session * W)
    : (exn + list (string * jvalue)) * gmap (list N) Session * W :=
  (sum_map id read_response o.1.1, read_session <$> o.1.2, o.2).

End Echo.

(** ** main.py: the status handler, and runs of the query handler *)

Module Status.

Import Main.

(** One value of the dict comprehension of [cache_status]. *)
Record Summary := {
  sm_mode : str;
  sm_file : option str;
  sm_topic : option str;
  sm_total_chunks : Z;
  sm_served : Z;
  sm_remaining : Z
}.

Definition summary (data : Session) : Summary :=
  {| sm_mode := s_mode data;
     sm_file := s_file data;
     sm_topic := s_topic data;
     sm_total_chunks := len (s_chunks data);
     sm_served := Z.of_nat (size (s_served data));
     sm_remaining := len (s_chunks data) - Z.of_nat (size (s_served data)) |}.

(** What [cache_status] returns: [{"cache": "empty"}], or
    [{"active_caches": {...}}] with one summary per key. *)
Inductive StatusReport :=
| CacheEmpty
| ActiveCaches (caches : gmap (list N) Summary).

(** [cache_status()] *)
Definition cache_status (chunk_cache : gmap (list N) Session) : StatusReport :=
  if bool_decide (size chunk_cache = 0) then CacheEmpty
  else ActiveCaches (summary <$> chunk_cache).

(** The indices a session has marked are positions of its chunk list, and
    the list is not empty. *)
Definition session_ok (s : Session) : Prop :=
  s_chunks s ≠ [] ∧ ∀ i, i ∈ s_served s → i < length (s_chunks s).

Definition cache_ok (chunk_cache : gmap (list N) Session) : Prop :=
  map_Forall (fun _ s => session_ok s) chunk_cache.

(** The value of [key] in a response, when it is a string. *)
Definition resp_str (key : string) (resp : list (string * jvalue)) : option str :=
  match resp_get key resp with
  | Some (JStr s) => Some s
  | _ => None
  end.

Section Runs.
Context {W Store : Type} (env : Env W Store).

(** Successive calls of [get_chunk(file, topic)], one per draw of [rs];
    the responses come in the order of the calls. *)
Fixpoint queries (rs : list nat) (file topic : option str)
    (chunk_cache : gmap (list N) Session) (w : W)
    : list (exn + list (string * jvalue)) * gmap (list N) Session * W :=
  match rs with
  | [] => ([], chunk_cache, w)
  | r :: rest =>
      let '(out, cache1, w1) := get_chunk env r file topic chunk_cache w in
      let '(outs, cache2, w2) := queries rest file topic cache1 w1 in
      (out :: outs, cache2, w2)
  end.

(** The chunks that a list of outcomes served. *)
Definition served_chunks (outs : list (exn + list (string * jvalue))) : list str :=
  omap (fun out => match out with
                   | inr resp => resp_str "chunk" resp
                   | inl _ => None
                   end) outs.

End Runs.

(** A session over two chunks, none served yet, and a cache that holds
    it. *)
Definition pair_session : Session :=
  {| s_file := Some (py "sets.md"); s_topic := None;
     s_chunks := [py "first chunk"; py "second chunk"];
     s_served := ∅; s_mode := RagHelper.mode_file_only |}.

Definition pair_cache : gmap (list N) Session :=
  {[ cache_key (Some (py "sets.md")) None := pair_session ]}.

End Status.

(** The small corpus again, with a splitter that cuts every text at its
    line ends, so that a note gives several chunks. *)
Module DemoLines.

Definition env : Env Demo.world (list str) :=
  {| notes_dir := notes_dir Demo.env;
     notes_path := notes_path Demo.env;
     note_exists := note_exists Demo.env;
     path_exists := path_exists Demo.env;
     listdir_notes := listdir_notes Demo.env;
     path_suffix := path_suffix Demo.env;
     str_lower := str_lower Demo.env;
     isalnum := isalnum Demo.env;
     run_parser := run_parser Demo.env;
     split_text := fun _ _ text => Demo.lines_go [] text;
     makedirs_vector_dir := makedirs_vector_dir Demo.env;
     chroma_from_documents := chroma_from_documents Demo.env;
     retriever_invoke := retriever_invoke Demo.env |}.

End DemoLines.

(** ** Counting in the chunker *)

Module Measures.

Import UnstructuredHelper.

(** The elements the loop of [extract_chunks] does not skip: those whose
    stripped text is not empty. *)
Definition nonblank (elements : list Element) : list Element :=
  filter (fun el => stripped_text el ≠ []) elements.

(** The chunks of a state of the loop that the last filter would keep,
    counting the chunk in progress as one when it is not empty. *)
Definition weight (st : State) : nat :=
  length (filter (fun c => long_enough c = true) (chunks st))
  + match current_chunk st with [] => 0 | _ => 1 end.

End Measures.

(** ** resources/markdown_loader.py *)

Module MarkdownLoader.

(** The file system as [load_notes] uses it, over a state [W] of the
    disk. *)
Record Files (W : Type) := {
  (** [os.listdir(NOTES_PATH)] *)
  listdir : W -> str + list str;
  (** [os.path.join(NOTES_PATH, fname)] *)
  join_path : str -> str;
  (** [open(path, "r", encoding="utf-8").read()] *)
  read_text : W -> str -> str + str
}.

Arguments listdir {W}.
Arguments join_path {W}.
Arguments read_text {W}.

(** [s.replace(old, new)] for a non-empty [old]: the occurrences of [old]
    are taken from left to right and do not overlap.  [skip] counts the
    characters of an occurrence still to be passed over. *)
Fixpoint replace_from (old new : str) (skip : nat) (s : str) : str :=
  match s with
  | [] => []
  | c :: t =>
      match skip with
      | S k => replace_from old new k t
      | 0 =>
          if startswith s old
          then new ++ replace_from old new (length old - 1) t
          else c :: replace_from old new 0 t
      end
  end.

Definition replace (s old new : str) : str := replace_from old new 0 s.

(** [old in s] *)
Fixpoint contains (old s : str) : bool :=
  startswith s old
  || match s with
     | [] => false
     | _ :: t => contains old t
     end.

Record Note := {
  note_id : str;
  note_title : str;
  note_preview : str;
  note_content : str
}.

Definition dot_md : str := Eval cbv in py ".md".

(** The dict appended for the file [fname] with text [content]. *)
Definition note_of (fname content : str) : Note :=
  {| note_id := py "note:" ++ fname;
     note_title := replace fname dot_md [];
     note_preview := take 80 content ++ py "...";
     note_content := content |}.

Section Loader.
Context {W : Type} (fs : Files W).

(** The loop [for fname in os.listdir(NOTES_PATH)]; a file that cannot be
    read ends the call with what [open] or [read] raised. *)
Fixpoint load_loop (w : W) (fnames : list str) (notes : list Note)
    : exn + list Note :=
  match fnames with
  | [] => inr notes
  | fname :: rest =>
      if endswith fname dot_md
      then match read_text fs w (join_path fs fname) with
           | inl m => inl (External m)
           | inr content => load_loop w rest (notes ++ [note_of fname content])
           end
      else load_loop w rest notes
  end.

(** [load_notes()] *)
Definition load_notes (w : W) : exn + list Note :=
  match listdir fs w with
  | inl m => inl (External m)
  | inr fnames => load_loop w fnames []
  end.

(** The note made from a file name: its text is what reading the file
    gave. *)
Definition loaded (w : W) (fname : str) (note : Note) : Prop :=
  ∃ content,
    read_text fs w (join_path fs fname) = inr content
    ∧ note = note_of fname content.

End Loader.

(** A directory with two notes and a picture. *)
Definition demo_files : Files unit :=
  {| listdir := fun _ => inr [py "sets.md"; py "cover.png"; py "graphs.md"];
     join_path := fun fname => py "../notes/" ++ fname;
     read_text := fun _ path =>
       if str_eqb path (py "../notes/sets.md") then inr (py "# Sets")
       else if str_eqb path (py "../notes/graphs.md") then inr (py "# Graphs")
       else inl (py "No such file or directory") |}.

End MarkdownLoader.

(** ** sample.py: the scan for NUL bytes *)

Module Sample.

(** The file system as the script uses it.  Paths are given by their
    [str]. *)
Record Disk (W : Type) := {
  (** [str(Path(arg).resolve())] *)
  resolve : str -> str;
  (** [root.exists()] *)
  exists_path : W -> str -> bool;
  (** [root.rglob("*.py")], in the order of the iteration *)
  rglob_py : W -> str -> list str;
  (** [p.read_bytes()], or the [str(e)] of what it raised *)
  read_bytes : W -> str -> str + list N
}.

Arguments resolve {W}.
Arguments exists_path {W}.
Arguments rglob_py {W}.
Arguments read_bytes {W}.

Section Scan.
Context {W : Type} (disk : Disk W).

(** The loop of [find_files_with_nul]: the lines printed and the files
    found, in order. *)
Fixpoint scan_loop (w : W) (paths : list str) (found : list str)
    : list str * list str :=
  match paths with
  | [] => ([], found)
  | p :: rest =>
      match read_bytes disk w p with
      | inl e =>
          let '(lines, found') := scan_loop w rest found in
          ((py "ERROR reading " ++ p ++ py ": " ++ e) :: lines, found')
      | inr data =>
          if bool_decide (0%N ∈ data)
          then scan_loop w rest (found ++ [p])
          else scan_loop w rest found
      end
  end.

(** [find_files_with_nul(root)]: the lines printed, and the list returned
    ([None] when the path does not exist). *)
Definition find_files_with_nul (root : str) (w : W)
    : list str * option (list str) :=
  if negb (exists_path disk w root)
  then ([py "ERROR: path not found: " ++ root], None)
  else let '(lines, found) := scan_loop w (rglob_py disk w root) [] in
       (lines, Some found).

(** [main(argv)]: the lines printed and the exit code. *)
Definition main (argv : list str) (w : W) : list str * Z :=
  let target := resolve disk (match argv with
                              | _ :: arg :: _ => arg
                              | _ => py "."
                              end) in
  let scanning := (128269%N :: py " Scanning: ") ++ target in
  let '(lines, result) := find_files_with_nul target w in
  match result with
  | None => (scanning :: lines, 2%Z)
  | Some [] =>
      (scanning :: lines
         ++ [9989%N :: py " No Python files with NUL bytes found."], 0%Z)
  | Some found =>
      (scanning :: lines ++ ((fun p => (10060%N :: py " ") ++ p) <$> found), 1%Z)
  end.

(** A file that can be read and holds a NUL byte. *)
Definition has_nul (w : W) (p : str) : bool :=
  match read_bytes disk w p with
  | inr data => bool_decide (0%N ∈ data)
  | inl _ => false
  end.

End Scan.

End Sample.

(** * Properties *)

(** ** Key derivation *)

Module KeyFacts.

Import Main Notions.

Lemma cache_key_none_topic (x : str) :
  x ≠ [] → cache_key None (Some x) = none_s ++ sep_s ++ x.
Proof. intros Hx. unfold cache_key. destruct x; [done | reflexivity]. Qed.

Lemma cache_key_file_none (x : str) :
  x ≠ [] → cache_key (Some x) None = x ++ sep_s ++ none_s.
Proof. intros Hx. unfold cache_key. destruct x; [done | reflexivity]. Qed.

(** The word equation behind a collision of the two keys. *)
Lemma swap_equation_chain (x : str) :
  none_s ++ sep_s ++ x = x ++ sep_s ++ none_s →
  ∃ n, x = sentinel_chain n.
Proof.
  remember (length x) as m eqn:Hm. revert x Hm.
  induction m as [m IH] using lt_wf_ind. intros x Hm Heq.
  destruct x as [|c1 [|c2 [|c3 [|c4 [|c5 [|c6 x']]]]]];
    cbn in Heq; try (by simplify_eq).
  - simplify_eq. by exists 0.
  - injection Heq as <- <- <- <- <- <- Heq.
    destruct (IH (length x')) with (x := x') as [n ->];
      [cbn in Hm; lia | done | |].
    + cbn. by rewrite Heq.
    + by exists (S n).
Qed.

Lemma chain_collides (n : nat) :
  none_s ++ sep_s ++ sentinel_chain n = sentinel_chain n ++ sep_s ++ none_s.
Proof.
  induction n as [|n IH]; [reflexivity |].
  cbn [sentinel_chain]. rewrite IH at 1. by rewrite <- !app_assoc.
Qed.

Lemma chain_nonempty (n : nat) : sentinel_chain n ≠ [].
Proof. by destruct n. Qed.

(** The two keys of a string coincide exactly for the empty string and for
    the chains of sentinels. *)
Lemma keys_collide_iff (x : str) :
  cache_key None (Some x) = cache_key (Some x) None
  ↔ x = [] ∨ ∃ n, x = sentinel_chain n.
Proof.
  split.
  - intros Heq. destruct (decide (x = [])) as [-> | Hx]; [by left | right].
    rewrite cache_key_none_topic, cache_key_file_none in Heq by done.
    by apply swap_equation_chain.
  - intros [-> | [n ->]]; [reflexivity |].
    rewrite cache_key_none_topic, cache_key_file_none by apply chain_nonempty.
    apply chain_collides.
Qed.

(** What holds of the keys: equal inputs give equal keys, and a file-only
    key differs from the topic-only key of the same string [x] for every
    non-empty [x] that is not a chain of sentinels [none], [none::none],
    ... *)
Lemma cache_key_separates :
  (∀ file1 topic1 file2 topic2 : option str,
      file1 = file2 → topic1 = topic2 →
      cache_key file1 topic1 = cache_key file2 topic2)
  ∧ (∀ x : str,
        x ≠ [] → (∀ n, x ≠ sentinel_chain n) →
        cache_key None (Some x) ≠ cache_key (Some x) None).
Proof.
  split.
  - by intros ? ? ? ? -> ->.
  - intros x Hx Hchain Heq. apply keys_collide_iff in Heq as [? | [n ?]];
      [done | by eapply Hchain].
Qed.

Lemma py_x_not_chain (n : nat) : py "x" ≠ sentinel_chain n.
Proof. by destruct n. Qed.

Lemma cache_key_separates_witness :
  cache_key (Some (py "a.md")) None = cache_key (Some (py "a.md")) None
  ∧ cache_key None (Some (py "x")) ≠ cache_key (Some (py "x")) None.
Proof.
  split.
  - apply (proj1 cache_key_separates); reflexivity.
  - apply (proj2 cache_key_separates (py "x")); [done | apply py_x_not_chain].
Defined.

(** The string [none] (and the empty string) gives the same key as a file
    name and as a topic. *)
Lemma cache_key_sentinel_collision :
  ¬ (∀ x : str, cache_key None (Some x) ≠ cache_key (Some x) None).
Proof. intros H. by apply (H (py "none")). Qed.

(** C4 fails on the code.  The key writes the word [none] for an absent
    parameter, so a parameter that is that word cannot be told from an
    absent one: the file-only and the topic-only key of [none] are the
    same key, as are those of every chain [none::none::...] (and, the
    empty string being read as absent, of [""]), and of no other string;
    keys of different strings meet too.  After a topic-only query for the
    topic [none], the file-only query for the file [none] is served from
    the session of the topic; on an empty cache it is answered that the
    file is missing. *)
Theorem file_only_and_topic_only_share_session :
  cache_key None (Some (py "none")) = cache_key (Some (py "none")) None
  ∧ (∀ x : str,
        cache_key None (Some x) = cache_key (Some x) None
        ↔ x = [] ∨ ∃ n, x = sentinel_chain n)
  ∧ cache_key (Some (py "none::x")) None = cache_key None (Some (py "x::none"))
  ∧ (let first := get_chunk Demo.env 0 None (Some (py "none")) ∅ Demo.corpus in
     let second :=
       get_chunk Demo.env 0 (Some (py "none")) None first.1.2 first.2 in
     first.1.1
     = inr [("mode"%string, JStr RagHelper.mode_topic_only);
            ("file"%string, JNone);
            ("topic"%string, JStr (py "none"));
            ("chunk"%string, JStr Demo.sets_text);
            ("remaining"%string, JInt 1);
            ("message"%string, JStr msg_created)]
     ∧ second.1.1
       = inr [("mode"%string, JStr RagHelper.mode_topic_only);
              ("file"%string, JNone);
              ("topic"%string, JStr (py "none"));
              ("chunk_index"%string, JInt 2);
              ("chunk"%string, JStr Demo.graphs_text);
              ("remaining"%string, JInt 0);
              ("message"%string, JStr msg_served)]
     ∧ (get_chunk Demo.env 0 (Some (py "none")) None ∅ Demo.corpus).1.1
       = inr [("error"%string,
               JStr (RagHelper.not_found_msg Demo.env (py "none")))]).
Proof.
  split_and!.
  - reflexivity.
  - apply keys_collide_iff.
  - reflexivity.
  - vm_compute. done.
Qed.

End KeyFacts.

(** ** Semantic deduplication *)

Module DedupFacts.

Import RagHelper.

(** The loop, one candidate further. *)
Lemma dedup_loop_snoc (chunks unique : list str) (c : str) (threshold : float) :
  dedup_loop (chunks ++ [c]) unique threshold =
    let accepted := dedup_loop chunks unique threshold in
    if existsb (fun u => is_similar c u threshold) accepted
    then accepted else accepted ++ [c].
Proof.
  revert unique. induction chunks as [|x chunks IH]; intros unique; cbn.
  - by destruct (existsb _ unique).
  - destruct (existsb _ unique); apply IH.
Qed.

Lemma deduplicate_semantic_snoc (chunks : list str) (c : str) (threshold : float) :
  deduplicate_semantic (chunks ++ [c]) threshold =
    let accepted := deduplicate_semantic chunks threshold in
    if existsb (fun u => is_similar c u threshold) accepted
    then accepted else accepted ++ [c].
Proof. apply dedup_loop_snoc. Qed.

Lemma existsb_similar_false (c : str) (accepted : list str) (threshold : float) :
  existsb (fun u => is_similar c u threshold) accepted = false
  ↔ Forall (fun u => PrimFloat.ltb threshold (Difflib.ratio c u) = false) accepted.
Proof.
  induction accepted as [|u accepted IH]; cbn.
  - split; [constructor | done].
  - rewrite orb_false_iff, IH, Forall_cons. reflexivity.
Qed.

Lemma dedup_loop_sublist (chunks unique : list str) (threshold : float) :
  ∃ kept, dedup_loop chunks unique threshold = unique ++ kept
          ∧ sublist kept chunks.
Proof.
  revert unique. induction chunks as [|x chunks IH]; intros unique; cbn.
  - exists []. by rewrite app_nil_r.
  - destruct (existsb _ unique).
    + destruct (IH unique) as (kept & -> & Hsub).
      exists kept. split; [done | by constructor].
    + destruct (IH (unique ++ [x])) as (kept & -> & Hsub).
      exists (x :: kept). rewrite <- app_assoc. split; [done | by constructor].
Qed.

(** C5, as the code has it: the accepted list starts empty; a candidate is
    accepted, at the end of the list, if and only if its ratio to every
    chunk accepted before it is not above the threshold (so a ratio equal
    to the threshold is accepted); the output keeps the input order. *)
Theorem deduplicate_semantic_greedy (chunks : list str) (c : str) (threshold : float) :
  deduplicate_semantic [] threshold = []
  ∧ (deduplicate_semantic (chunks ++ [c]) threshold =
       deduplicate_semantic chunks threshold ++ [c]
     ↔ Forall (fun u => PrimFloat.ltb threshold (Difflib.ratio c u) = false)
         (deduplicate_semantic chunks threshold))
  ∧ (deduplicate_semantic (chunks ++ [c]) threshold =
       deduplicate_semantic chunks threshold
     ↔ ¬ Forall (fun u => PrimFloat.ltb threshold (Difflib.ratio c u) = false)
           (deduplicate_semantic chunks threshold))
  ∧ sublist (deduplicate_semantic chunks threshold) chunks.
Proof.
  split; [reflexivity |].
  rewrite deduplicate_semantic_snoc. cbn zeta.
  rewrite <- existsb_similar_false.
  destruct (existsb _ (deduplicate_semantic chunks threshold)) eqn:Hex.
  - split; [| split].
    + split; [| done]. intros Heq.
      apply (f_equal length) in Heq. rewrite length_app in Heq. cbn in Heq. lia.
    + split; [by intros _ | done].
    + destruct (dedup_loop_sublist chunks [] threshold) as (kept & Hk & Hsub).
      unfold deduplicate_semantic. by rewrite Hk.
  - split; [| split].
    + done.
    + split; [| done]. intros Heq.
      apply (f_equal length) in Heq. rewrite length_app in Heq. cbn in Heq. lia.
    + destruct (dedup_loop_sublist chunks [] threshold) as (kept & Hk & Hsub).
      unfold deduplicate_semantic. by rewrite Hk.
Qed.

(** C5 as stated fails at the threshold itself: the second chunk has ratio
    [2 * 9 / 20 = 0.9] to the first, which is not strictly below [0.9], and
    it is accepted. *)
Lemma ratio_at_threshold_accepted :
  let a := py "abcdefghij" in
  let b := py "abcdefghiX" in
  deduplicate_semantic ([a] ++ [b]) default_threshold =
    deduplicate_semantic [a] default_threshold ++ [b]
  ∧ ¬ Forall (fun u => PrimFloat.ltb (Difflib.ratio b u) default_threshold = true)
        (deduplicate_semantic [a] default_threshold).
Proof.
  split; [vm_compute; reflexivity |].
  intros H. apply Forall_inv in H. vm_compute in H. discriminate H.
Qed.

(** C6: deduplicating the output of the deduplicator changes nothing. *)
Theorem deduplicate_semantic_idempotent (chunks : list str) (threshold : float) :
  deduplicate_semantic (deduplicate_semantic chunks threshold) threshold =
    deduplicate_semantic chunks threshold.
Proof.
  induction chunks as [|c chunks IH] using rev_ind; [reflexivity |].
  rewrite deduplicate_semantic_snoc. cbn zeta.
  destruct (existsb _ (deduplicate_semantic chunks threshold)) eqn:Hex; [done |].
  rewrite deduplicate_semantic_snoc. cbn zeta. by rewrite IH, Hex.
Qed.

End DedupFacts.


(** ** The retrieval router *)

Module RouterFacts.

Import RagHelper Notions.

Section Router.
Context {W Store : Type} (env : Env W Store).

(** When both parameters are falsy the router raises its [ValueError]. *)
Lemma get_relevant_chunks_invalid (file_name topic : option str) (k : Z) (w : W) :
  truthy file_name = false → truthy topic = false →
  get_relevant_chunks env file_name topic k w
  = (w, inl (ValueError invalid_query_msg)).
Proof. intros Hf Ht. unfold get_relevant_chunks. by rewrite Hf, Ht. Qed.

(** A falsy file name is read only through its truth value. *)
Lemma get_relevant_chunks_falsy_file (file_name topic : option str) (k : Z) (w : W) :
  truthy file_name = false →
  get_relevant_chunks env file_name topic k w
  = get_relevant_chunks env None topic k w.
Proof.
  intros Hf. unfold get_relevant_chunks. rewrite Hf. cbn [truthy negb andb].
  by destruct (truthy topic).
Qed.

(** A falsy topic is read only through its truth value. *)
Lemma get_relevant_chunks_falsy_topic (file_name topic : option str) (k : Z) (w : W) :
  truthy topic = false →
  get_relevant_chunks env file_name topic k w
  = get_relevant_chunks env file_name None k w.
Proof.
  intros Ht. unfold get_relevant_chunks. rewrite Ht. cbn [truthy negb andb].
  by destruct (truthy file_name).
Qed.

Lemma safe_partition_error (file_path : str) (w w' : W) (e : exn) :
  safe_partition env file_path w = (w', inl e) → ∃ msg, e = RuntimeError msg.
Proof.
  unfold safe_partition, try_except, reading, raise, external. intros H.
  destruct (run_parser env _ w file_path); simplify_eq; eauto.
Qed.

Lemma build_vectorstore_error (file_name : str) (w w' : W) (e : exn) :
  build_vectorstore env file_name w = (w', inl e) →
  e ≠ ValueError invalid_query_msg.
Proof.
  unfold build_vectorstore. destruct (note_exists env w file_name); cbn.
  - unfold bind. destruct (safe_partition env _ w) as [w1 [e1 | els]] eqn:Hp.
    + intros ?; simplify_eq. apply safe_partition_error in Hp as [msg ->]. done.
    + unfold calling, external.
      destruct (makedirs_vector_dir env w1) as [w2 [m | []]]; cbn;
        [intros ?; by simplify_eq |].
      destruct (chroma_from_documents env w2 _) as [w3 [m | st]]; cbn;
        intros ?; by simplify_eq.
  - unfold raise. intros ?; by simplify_eq.
Qed.

(** The topic-only loop never raises: it returns what the answering
    documents gave, after what was accumulated before. *)
Lemma topic_loop_answered (files : list str) (topic : str) (k : Z)
    (all_chunks : list str) (w : W) :
  ∃ w', topic_loop env files topic k all_chunks w
        = (w', inr (all_chunks ++ answered env files topic k w)).
Proof.
  revert all_chunks w. induction files as [|file rest IH]; intros acc w;
    cbn [topic_loop answered].
  - exists w. unfold ret. by rewrite app_nil_r.
  - destruct (is_supported file); cbn [negb]; [| apply IH].
    unfold bind at 1. unfold try_except, bind, ret.
    destruct (retrieve_from env file topic k w) as [w1 [e | found]].
    + apply IH.
    + destruct (IH (acc ++ found) w1) as [w2 ->].
      exists w2. by rewrite <- app_assoc.
Qed.

End Router.

(** [dict.fromkeys] keeps the first occurrences, in order. *)
Lemma fromkeys_loop_spec (l seen : list str) :
  NoDup seen →
  ∃ kept, fromkeys_loop l seen = seen ++ kept
          ∧ sublist kept l
          ∧ NoDup (seen ++ kept)
          ∧ ∀ x, x ∈ seen ++ kept ↔ x ∈ seen ∨ x ∈ l.
Proof.
  revert seen. induction l as [|x l IH]; intros seen Hnd; cbn.
  - exists []. rewrite app_nil_r. split_and!; [done | done | done |].
    intros x. rewrite elem_of_nil. tauto.
  - case_bool_decide as Hin.
    + destruct (IH seen Hnd) as (kept & -> & Hsub & Hnd' & Hmem).
      exists kept. split_and!; [done | by constructor | done |].
      intros y. rewrite Hmem, elem_of_cons. split; [tauto |].
      intros [? | [-> | ?]]; tauto.
    + destruct (IH (seen ++ [x])) as (kept & -> & Hsub & Hnd' & Hmem).
      { apply NoDup_app. split_and!; [done | | apply NoDup_singleton].
        intros y Hy ->%list_elem_of_singleton. done. }
      exists (x :: kept). rewrite <- app_assoc in *. cbn in *.
      split_and!; [done | by constructor | done |].
      intros y. rewrite Hmem, elem_of_app, list_elem_of_singleton, elem_of_cons.
      tauto.
Qed.

Lemma dict_fromkeys_spec (l : list str) :
  sublist (dict_fromkeys l) l
  ∧ NoDup (dict_fromkeys l)
  ∧ ∀ x, x ∈ dict_fromkeys l ↔ x ∈ l.
Proof.
  destruct (fromkeys_loop_spec l []) as (kept & Heq & Hsub & Hnd & Hmem);
    [constructor |].
  unfold dict_fromkeys. rewrite Heq. cbn in *. split_and!; [done | done |].
  intros x. rewrite Hmem, elem_of_nil. tauto.
Qed.

(** C7: in topic-only mode the call succeeds whatever the single documents
    do, once the directory could be listed: its chunks are those of the
    documents that answered, a failing document contributing nothing, with
    exact duplicates removed. *)
Theorem topic_only_skips_failures {W Store : Type} (env : Env W Store)
    (file_name topic : option str) (k : Z) (w : W) (files : list str) :
  truthy topic = true →
  truthy file_name = false →
  listdir_notes env w = inr files →
  let found := answered env files (default [] topic) k w in
  (∃ w',
      get_relevant_chunks env file_name topic k w
      = (w', inr {| mode := mode_topic_only; file := None; topic := topic;
                    total_chunks := length (dict_fromkeys found);
                    context_chunks := dict_fromkeys found |}))
  ∧ sublist (dict_fromkeys found) found
  ∧ NoDup (dict_fromkeys found)
  ∧ ∀ c, c ∈ dict_fromkeys found ↔ c ∈ found.
Proof.
  intros Ht Hf Hls found. split; [| apply dict_fromkeys_spec].
  unfold get_relevant_chunks. rewrite Ht, Hf. cbn [negb andb].
  unfold bind at 1. unfold reading. rewrite Hls. cbn [external].
  unfold bind.
  destruct (topic_loop_answered env files (default [] topic) k [] w) as [w' ->].
  exists w'. reflexivity.
Qed.

Lemma topic_only_skips_failures_witness :
  let found :=
    answered Demo.env (Demo.corpus.*1) (py "sets") 5 Demo.corpus in
  found = [Demo.sets_text; Demo.graphs_text]
  ∧ ∃ w',
      get_relevant_chunks Demo.env None (Some (py "sets")) 5 Demo.corpus
      = (w', inr {| mode := mode_topic_only; file := None;
                    topic := Some (py "sets");
                    total_chunks := length (dict_fromkeys found);
                    context_chunks := dict_fromkeys found |}).
Proof.
  split; [vm_compute; reflexivity |].
  apply (topic_only_skips_failures Demo.env None (Some (py "sets")) 5
           Demo.corpus (Demo.corpus.*1)); reflexivity.
Defined.

(** The router raises its [ValueError] exactly when both parameters are
    falsy ([None] or empty). *)
Lemma invalid_query_iff {W Store : Type} (env : Env W Store)
    (file_name topic : option str) (k : Z) (w : W) :
  (get_relevant_chunks env file_name topic k w).2
  = inl (ValueError invalid_query_msg)
  ↔ truthy file_name = false ∧ truthy topic = false.
Proof.
  split.
  - unfold get_relevant_chunks.
    destruct (truthy file_name) eqn:Hf, (truthy topic) eqn:Ht;
      cbn [negb andb]; [| | | done].
    + unfold bind.
      destruct (build_vectorstore env _ w) as [w1 [e | st]] eqn:Hb; cbn.
      * intros ?; simplify_eq. by apply build_vectorstore_error in Hb.
      * unfold calling, external.
        destruct (retriever_invoke env w1 st _ k) as [w2 [m | docs]]; cbn;
          intros ?; by simplify_eq.
    + destruct (note_exists env w _); cbn; [| by intros ?].
      unfold bind.
      destruct (safe_partition env _ w) as [w1 [e | els]] eqn:Hp; cbn;
        [| by intros ?].
      intros ?; simplify_eq. by apply safe_partition_error in Hp as [msg ?].
    + unfold bind at 1. unfold reading, external.
      destruct (listdir_notes env w) as [m | files]; cbn; [by intros ? |].
      unfold bind.
      destruct (topic_loop_answered env files (default [] topic) k [] w)
        as [w' ->]. by intros ?.
  - intros [Hf Ht]. by rewrite get_relevant_chunks_invalid.
Qed.

End RouterFacts.


(** ** The session cache *)

Module CacheFacts.

Import RagHelper Main Notions.

(** *** Lists, indices and the random pick *)

Lemma str_eqb_eq (a b : str) : str_eqb a b = true ↔ a = b.
Proof. unfold str_eqb. by rewrite bool_decide_eq_true. Qed.

Lemma index_Some (x : str) (l : list str) (i : nat) :
  index x l = Some i →
  l !! i = Some x ∧ ∀ j, j < i → l !! j ≠ Some x.
Proof.
  revert i. induction l as [|y l IH]; intros i; cbn; [done |].
  destruct (str_eqb y x) eqn:Hyx.
  - intros [= <-]. apply str_eqb_eq in Hyx as ->. split; [done | lia].
  - destruct (index x l) as [i' |]; [| done]. intros [= <-].
    destruct (IH i' eq_refl) as [Hi Hlt]. split; [done |].
    intros [|j] Hj; cbn.
    + intros [= ->]. unfold str_eqb in Hyx. by rewrite bool_decide_true in Hyx.
    + apply Hlt. lia.
Qed.

Lemma index_elem_of (x : str) (l : list str) :
  x ∈ l → is_Some (index x l).
Proof.
  induction l as [|y l IH]; [by intros ?%elem_of_nil |].
  intros [-> | Hin]%elem_of_cons; cbn.
  - unfold str_eqb. rewrite bool_decide_true by done. eauto.
  - destruct (str_eqb y x); [eauto |].
    destruct (IH Hin) as [i ->]. cbn. eauto.
Qed.

Lemma choice_elem_of (r : nat) (x : str) (l : list str) :
  choice r x l ∈ x :: l.
Proof.
  unfold choice. apply nth_elem_of. cbn [length].
  apply Nat.mod_upper_bound. lia.
Qed.

(** Every position of the sequence can be drawn. *)
Lemma choice_reaches (x : str) (l : list str) (i : nat) (c : str) :
  (x :: l) !! i = Some c → choice i x l = c.
Proof.
  intros Hi. unfold choice.
  assert (i < S (length l)) as Hlt by (apply lookup_lt_Some in Hi; cbn in Hi; lia).
  rewrite Nat.mod_small by done. by apply nth_lookup_Some.
Qed.

Lemma remaining_from_elem_of (i0 : nat) (chunks : list str) (served : gset nat)
    (c : str) :
  c ∈ remaining_from i0 chunks served
  ↔ ∃ j, chunks !! j = Some c ∧ i0 + j ∉ served.
Proof.
  revert i0. induction chunks as [|x chunks IH]; intros i0; cbn.
  - rewrite elem_of_nil. split; [done | by intros (j & ? & _)].
  - case_bool_decide as Hin.
    + rewrite IH. split.
      * intros (j & Hj & Hns). exists (S j). split; [done |].
        by replace (i0 + S j) with (S i0 + j) by lia.
      * intros ([|j] & Hj & Hns).
        { by rewrite Nat.add_0_r in Hns. }
        exists j. split; [done |].
        by replace (S i0 + j) with (i0 + S j) by lia.
    + rewrite elem_of_cons, IH. split.
      * intros [-> | (j & Hj & Hns)].
        { exists 0. by rewrite Nat.add_0_r. }
        exists (S j). split; [done |].
        by replace (i0 + S j) with (S i0 + j) by lia.
      * intros ([|j] & Hj & Hns).
        { left. by injection Hj. }
        right. exists j. split; [done |].
        by replace (S i0 + j) with (i0 + S j) by lia.
Qed.

Lemma remaining_from_empty (i0 : nat) (chunks : list str) :
  remaining_from i0 chunks ∅ = chunks.
Proof.
  revert i0. induction chunks as [|x chunks IH]; intros i0; cbn; [done |].
  rewrite bool_decide_false by set_solver. by rewrite IH.
Qed.

Lemma remaining_from_all_served (i0 : nat) (chunks : list str) (served : gset nat) :
  (∀ j, j < length chunks → i0 + j ∈ served) →
  remaining_from i0 chunks served = [].
Proof.
  revert i0. induction chunks as [|x chunks IH]; intros i0 Hall; cbn; [done |].
  rewrite bool_decide_true.
  - apply IH. intros j Hj. replace (S i0 + j) with (i0 + S j) by lia.
    apply Hall. cbn. lia.
  - specialize (Hall 0). rewrite Nat.add_0_r in Hall. apply Hall. cbn. lia.
Qed.

Lemma mark_served_fresh (i : nat) (file topic : option str) (chunks : list str)
    (mode : str) :
  mark_served i {| s_file := file; s_topic := topic; s_chunks := chunks;
                   s_served := ∅; s_mode := mode |}
  = {| s_file := file; s_topic := topic; s_chunks := chunks;
       s_served := {[ i ]}; s_mode := mode |}.
Proof. unfold mark_served. cbn. f_equal. apply union_empty_r_L. Qed.

Section Handlers.
Context {W Store : Type} (env : Env W Store).

(** *** Cache hits *)

(** A hit on a session with nothing left evicts it and answers [Cleared]. *)
Lemma hit_exhausted (r : nat) (file topic : option str)
    (chunk_cache : gmap (list N) Session) (w : W) (s : Session) :
  chunk_cache !! cache_key file topic = Some s →
  (∀ j, j < length (s_chunks s) → j ∈ s_served s) →
  get_chunk env r file topic chunk_cache w
  = (inr [("message"%string, JStr msg_cleared)],
     delete (cache_key file topic) chunk_cache, w).
Proof.
  intros Hs Hall. unfold get_chunk. rewrite Hs. unfold remaining_of.
  by rewrite remaining_from_all_served.
Qed.

(** A hit on a session whose chunks are pairwise different serves a chunk
    at an index not served before, and marks that index. *)
Lemma hit_distinct_serves_unserved (r : nat) (file topic : option str)
    (chunk_cache : gmap (list N) Session) (w : W) (s : Session) (j : nat) :
  chunk_cache !! cache_key file topic = Some s →
  NoDup (s_chunks s) →
  j < length (s_chunks s) → j ∉ s_served s →
  ∃ i chunk,
    s_chunks s !! i = Some chunk ∧ (i ∉ s_served s)
    ∧ get_chunk env r file topic chunk_cache w
      = (inr [("mode"%string, JStr (s_mode s));
              ("file"%string, of_opt (s_file s));
              ("topic"%string, of_opt (s_topic s));
              ("chunk_index"%string, JInt (Z.of_nat i + 1));
              ("chunk"%string, JStr chunk);
              ("remaining"%string, JInt (len (remaining_of s) - 1));
              ("message"%string, JStr msg_served)],
         <[cache_key file topic := mark_served i s]> chunk_cache, w).
Proof.
  intros Hs Hnd Hj Hns. unfold get_chunk. rewrite Hs.
  destruct (remaining_of s) as [|c0 rest] eqn:Hrem.
  - exfalso. destruct (lookup_lt_is_Some_2 _ _ Hj) as [c Hc].
    assert (c ∈ remaining_of s) as Hin.
    { apply remaining_from_elem_of. by exists j. }
    rewrite Hrem in Hin. by apply elem_of_nil in Hin.
  - pose proof (choice_elem_of r c0 rest) as Hin. rewrite <- Hrem in Hin.
    apply remaining_from_elem_of in Hin as (i & Hi & Hins). cbn in Hins.
    destruct (index_elem_of (choice r c0 rest) (s_chunks s)) as [i' Hi'];
      [by eapply list_elem_of_lookup_2 |].
    rewrite Hi'. apply index_Some in Hi' as [Hi'' _].
    assert (i' = i) as -> by (by eapply NoDup_lookup).
    by exists i, (choice r c0 rest).
Qed.

(** *** Cache misses *)

(** C2: a miss whose retrieval raises, or finds no chunk, answers with the
    error payload, or with the message of an empty result and its mode, and
    leaves [chunk_cache] as it was. *)
Theorem failed_build_keeps_cache (r : nat) (file topic : option str)
    (chunk_cache : gmap (list N) Session) (w w' : W)
    (out : exn + RetrievalResult) :
  chunk_cache !! cache_key file topic = None →
  get_relevant_chunks env file topic 5 w = (w', out) →
  match out with
  | inl _ => True
  | inr result => context_chunks result = []
  end →
  get_chunk env r file topic chunk_cache w
  = (inr match out with
         | inl e => [("error"%string, JStr (exn_str e))]
         | inr result => [("message"%string, JStr msg_empty);
                          ("mode"%string, JStr (mode result))]
         end,
     chunk_cache, w').
Proof.
  intros Hmiss Hget Hout. unfold get_chunk. rewrite Hmiss, Hget.
  destruct out as [e | result]; [done |]. by rewrite Hout.
Qed.

(** The first serve of a new session, and the serve of a hit on the same
    session with nothing served yet: same chunk, same index marked, same
    count of remaining chunks; only the hit reports the index. *)
Lemma created_like_first_hit (r : nat) (file topic : option str)
    (chunk_cache : gmap (list N) Session) (w w' : W)
    (result : RetrievalResult) (c0 : str) (rest : list str) :
  chunk_cache !! cache_key file topic = None →
  get_relevant_chunks env file topic 5 w = (w', inr result) →
  context_chunks result = c0 :: rest →
  let chunks := c0 :: rest in
  let chunk := choice r c0 rest in
  let fresh := {| s_file := file; s_topic := topic; s_chunks := chunks;
                  s_served := ∅; s_mode := mode result |} in
  ∃ i,
    index chunk chunks = Some i
    ∧ get_chunk env r file topic chunk_cache w
      = (inr [("mode"%string, JStr (mode result));
              ("file"%string, of_opt file);
              ("topic"%string, of_opt topic);
              ("chunk"%string, JStr chunk);
              ("remaining"%string, JInt (len chunks - 1));
              ("message"%string, JStr msg_created)],
         <[cache_key file topic := mark_served i fresh]> chunk_cache, w')
    ∧ get_chunk env r file topic
        (<[cache_key file topic := fresh]> chunk_cache) w'
      = (inr [("mode"%string, JStr (mode result));
              ("file"%string, of_opt file);
              ("topic"%string, of_opt topic);
              ("chunk_index"%string, JInt (Z.of_nat i + 1));
              ("chunk"%string, JStr chunk);
              ("remaining"%string, JInt (len chunks - 1));
              ("message"%string, JStr msg_served)],
         <[cache_key file topic := mark_served i fresh]> chunk_cache, w').
Proof.
  intros Hmiss Hget Hchunks chunks chunk fresh.
  destruct (index_elem_of chunk chunks) as [i Hi]; [apply choice_elem_of |].
  exists i. split; [done |]. split.
  - unfold get_chunk. rewrite Hmiss, Hget, Hchunks.
    fold chunks chunk. rewrite Hi. by rewrite alter_insert_eq.
  - unfold get_chunk. rewrite lookup_insert_eq.
    unfold remaining_of. cbn [s_chunks s_served fresh].
    rewrite remaining_from_empty. unfold chunks at 1. fold chunk.
    fold chunks. rewrite Hi. by rewrite insert_insert_eq.
Qed.

(** C3, what the code does: a miss with [N >= 1] chunks creates the session
    and serves one chunk as a hit would (the chunk drawn, the first index
    that holds it marked and no other, [N - 1] remaining), and the
    [Created] response has no [chunk_index] entry. *)
Theorem created_response_lacks_index (r : nat) (file topic : option str)
    (chunk_cache : gmap (list N) Session) (w w' : W)
    (result : RetrievalResult) (c0 : str) (rest : list str) :
  chunk_cache !! cache_key file topic = None →
  get_relevant_chunks env file topic 5 w = (w', inr result) →
  context_chunks result = c0 :: rest →
  ∃ (i : nat) (resp : list (string * jvalue)) (s : Session),
    get_chunk env r file topic chunk_cache w
    = (inr resp, <[cache_key file topic := s]> chunk_cache, w')
    ∧ s_chunks s = c0 :: rest
    ∧ s_served s = {[ i ]}
    ∧ (c0 :: rest) !! i = Some (choice r c0 rest)
    ∧ resp_get "chunk" resp = Some (JStr (choice r c0 rest))
    ∧ resp_get "remaining" resp = Some (JInt (len (c0 :: rest) - 1))
    ∧ resp_get "message" resp = Some (JStr msg_created)
    ∧ resp_get "chunk_index" resp = None.
Proof.
  intros Hmiss Hget Hchunks.
  destruct (created_like_first_hit r file topic chunk_cache w w' result c0 rest)
    as (i & Hi & Hcreated & _); [done .. |].
  eexists i, _, _. split; [exact Hcreated |].
  rewrite mark_served_fresh. cbn [s_chunks s_served].
  apply index_Some in Hi as [Hi _]. by split_and!.
Qed.

(** *** Repeated chunks *)

(** That session is what the creating call leaves, whatever is drawn. *)
Lemma created_from_equal_chunks (r : nat) (file topic : option str)
    (chunk_cache : gmap (list N) Session) (w w' : W)
    (result : RetrievalResult) (c : str) :
  chunk_cache !! cache_key file topic = None →
  get_relevant_chunks env file topic 5 w = (w', inr result) →
  context_chunks result = [c; c] →
  (get_chunk env r file topic chunk_cache w).1.2
  = <[cache_key file topic := twice file topic (mode result) c]> chunk_cache.
Proof.
  intros Hmiss Hget Hchunks.
  destruct (created_like_first_hit r file topic chunk_cache w w' result c [c])
    as (i & Hi & -> & _); [done .. |].
  cbn [fst snd]. rewrite mark_served_fresh.
  assert (choice r c [c] = c) as Hc.
  { pose proof (choice_elem_of r c [c]) as Hin.
    apply elem_of_cons in Hin as [-> | ->%list_elem_of_singleton]; done. }
  rewrite Hc in Hi. cbn in Hi. unfold str_eqb in Hi.
  rewrite bool_decide_true in Hi by done. by injection Hi as <-.
Qed.

(** C1 fails on the code: with two equal chunks, every query after the
    first serves index 0 again (reported as [chunk_index] 1), leaves the
    session as it is, and so never answers [Cleared]. *)
Theorem equal_chunks_served_again (r : nat) (file topic : option str)
    (sfile stopic : option str) (smode c : str)
    (chunk_cache : gmap (list N) Session) (w : W) :
  get_chunk env r file topic
    (<[cache_key file topic := twice sfile stopic smode c]> chunk_cache) w
  = (inr [("mode"%string, JStr smode);
          ("file"%string, of_opt sfile);
          ("topic"%string, of_opt stopic);
          ("chunk_index"%string, JInt 1);
          ("chunk"%string, JStr c);
          ("remaining"%string, JInt 0);
          ("message"%string, JStr msg_served)],
     <[cache_key file topic := twice sfile stopic smode c]> chunk_cache, w).
Proof.
  unfold get_chunk. rewrite lookup_insert_eq.
  unfold remaining_of, twice. cbn [s_chunks s_served remaining_from].
  rewrite bool_decide_true, bool_decide_false by set_solver.
  assert (choice r c [] = c) as ->.
  { by pose proof (choice_elem_of r c []) as ->%list_elem_of_singleton. }
  cbn [index]. unfold str_eqb. rewrite bool_decide_true by done.
  rewrite insert_insert_eq. unfold mark_served. cbn [s_served].
  assert (({[ 0 ]} ∪ {[ 0 ]} : gset nat) = {[ 0 ]}) as -> by apply union_idemp_L.
  reflexivity.
Qed.

End Handlers.

(** *** Runs on the small corpus *)

Lemma failed_build_keeps_cache_witness :
  get_chunk Demo.env 0 None (Some (py "sets")) ∅ [(py "empty.txt", [])]
  = (inr [("message"%string, JStr msg_empty);
          ("mode"%string, JStr mode_topic_only)],
     ∅, [(py "empty.txt", [])]).
Proof.
  apply (failed_build_keeps_cache Demo.env 0 None (Some (py "sets")) ∅
           [(py "empty.txt", [])] [(py "empty.txt", [])]
           (inr {| mode := mode_topic_only; file := None;
                   topic := Some (py "sets"); total_chunks := 0;
                   context_chunks := [] |})).
  - apply lookup_empty.
  - vm_compute. reflexivity.
  - reflexivity.
Defined.

Lemma created_response_lacks_index_witness :
  ∃ (i : nat) (resp : list (string * jvalue)) (s : Session),
    get_chunk Demo.env 0 (Some (py "sets.md")) None ∅ Demo.corpus
    = (inr resp, <[cache_key (Some (py "sets.md")) None := s]> ∅, Demo.corpus)
    ∧ s_chunks s = [Demo.sets_text]
    ∧ s_served s = {[ i ]}
    ∧ [Demo.sets_text] !! i = Some (choice 0 Demo.sets_text [])
    ∧ resp_get "chunk" resp = Some (JStr (choice 0 Demo.sets_text []))
    ∧ resp_get "remaining" resp = Some (JInt (len [Demo.sets_text] - 1))
    ∧ resp_get "message" resp = Some (JStr msg_created)
    ∧ resp_get "chunk_index" resp = None.
Proof.
  apply (created_response_lacks_index Demo.env 0 (Some (py "sets.md")) None ∅
           Demo.corpus Demo.corpus
           {| mode := mode_file_only; file := Some (py "sets.md");
              topic := None; total_chunks := 1;
              context_chunks := [Demo.sets_text] |}).
  - apply lookup_empty.
  - vm_compute. reflexivity.
  - reflexivity.
Defined.

(** C8 fails on the code: after a topic-only query for the topic [none] has
    created a session, a query with neither parameter finds that session
    under its own key [none::none] and is served a chunk from it.  With no
    such session the same query gets the error payload. *)
Theorem neither_parameter_served_from_sentinel_session :
  let first := get_chunk Demo.env 0 None (Some (py "none")) ∅ Demo.corpus in
  let second := get_chunk Demo.env 0 None None first.1.2 first.2 in
  first.1.1
  = inr [("mode"%string, JStr mode_topic_only);
         ("file"%string, JNone);
         ("topic"%string, JStr (py "none"));
         ("chunk"%string, JStr Demo.sets_text);
         ("remaining"%string, JInt 1);
         ("message"%string, JStr msg_created)]
  ∧ second.1.1
    = inr [("mode"%string, JStr mode_topic_only);
           ("file"%string, JNone);
           ("topic"%string, JStr (py "none"));
           ("chunk_index"%string, JInt 2);
           ("chunk"%string, JStr Demo.graphs_text);
           ("remaining"%string, JInt 0);
           ("message"%string, JStr msg_served)]
  ∧ (get_chunk Demo.env 0 None None ∅ Demo.corpus).1.1
    = inr [("error"%string, JStr invalid_query_msg)].
Proof. vm_compute. done. Qed.

End CacheFacts.


(** ** The chunker *)

Module ChunkerFacts.

Import UnstructuredHelper Notions.

(** *** Whitespace *)

Lemma nonspace_app (a b : str) : nonspace (a ++ b) = nonspace a ++ nonspace b.
Proof. apply filter_app. Qed.

Lemma nonspace_lstrip (s : str) : nonspace (lstrip s) = nonspace s.
Proof.
  induction s as [|c s IH]; [done |]. cbn [lstrip].
  destruct (isspace c) eqn:Hc; [| done].
  rewrite IH. unfold nonspace. rewrite filter_cons_False; [done |].
  by rewrite Hc.
Qed.

Lemma nonspace_rev (s : str) : nonspace (rev s) = rev (nonspace s).
Proof.
  induction s as [|c s IH]; [done |]. cbn [rev].
  rewrite nonspace_app, IH. unfold nonspace at 2 3.
  rewrite filter_cons. destruct (decide (isspace c = false)) as [Hc | Hc].
  - cbn [rev]. f_equal. by rewrite filter_cons_True.
  - rewrite filter_cons_False by done. by rewrite app_nil_r.
Qed.

Lemma nonspace_strip (s : str) : nonspace (strip s) = nonspace s.
Proof.
  unfold strip, rstrip.
  by rewrite nonspace_rev, nonspace_lstrip, nonspace_rev, rev_involutive,
    nonspace_lstrip.
Qed.

Lemma nonspace_newline : nonspace newline = [].
Proof. reflexivity. Qed.

Lemma nonspace_join (parts : list str) :
  nonspace (join newline parts) = chars parts.
Proof.
  unfold chars. induction parts as [|p parts IH]; [done |].
  rewrite bind_cons, <- IH. destruct parts as [|q parts].
  - cbn. by rewrite app_nil_r.
  - change (join newline (p :: q :: parts))
      with (p ++ newline ++ join newline (q :: parts)).
    by rewrite !nonspace_app, nonspace_newline.
Qed.

Lemma chars_app (l1 l2 : list str) : chars (l1 ++ l2) = chars l1 ++ chars l2.
Proof. apply bind_app. Qed.

Lemma chars_singleton (c : str) : chars [c] = nonspace c.
Proof. unfold chars. cbn. apply app_nil_r. Qed.

Lemma input_chars_app (l1 l2 : list Element) :
  input_chars (l1 ++ l2) = input_chars l1 ++ input_chars l2.
Proof. apply bind_app. Qed.

Lemma input_chars_cons (el : Element) (l : list Element) :
  input_chars (el :: l) = nonspace (or_else (el_text el) []) ++ input_chars l.
Proof. reflexivity. Qed.

Lemma chars_append_to_last (chunks : list str) (text : str) :
  chunks ≠ [] →
  chars (append_to_last chunks text) = chars chunks ++ nonspace text.
Proof.
  intros Hne. unfold append_to_last.
  destruct (rev chunks) as [|lst before] eqn:Hrev.
  - apply (f_equal (@rev _)) in Hrev. rewrite rev_involutive in Hrev. done.
  - apply (f_equal (@rev _)) in Hrev. rewrite rev_involutive in Hrev.
    cbn [rev] in Hrev. rewrite Hrev.
    rewrite !chars_app, !chars_singleton, !nonspace_app, nonspace_newline.
    by rewrite <- app_assoc.
Qed.

Section Chunker.
Context {W Store : Type} (env : Env W Store).

Lemma nonspace_stripped_text (el : Element) :
  nonspace (stripped_text el) = nonspace (or_else (el_text el) []).
Proof. apply nonspace_strip. Qed.

(** *** The scan after a lead-in *)

(** The scan reads a prefix of the elements: the texts it merges have the
    characters of that prefix, and the loop goes on after it. *)
Lemma lookahead_prefix (els : list Element) :
  ∃ merged,
    els = merged ++ (lookahead env els).2
    ∧ chars (lookahead env els).1 = input_chars merged.
Proof.
  induction els as [|nxt tl IH]; [by exists [] |].
  cbn [lookahead].
  destruct (stripped_text nxt) as [|c text] eqn:Htext.
  - destruct IH as (merged & Htl & Hchars). exists (nxt :: merged). split.
    + cbn. by rewrite <- Htl.
    + rewrite Hchars, input_chars_cons, <- nonspace_stripped_text, Htext. done.
  - destruct (str_eqb (el_type nxt) title_s || (60 <? words (c :: text))%Z);
      [by exists [] |].
    destruct (str_eqb (el_type nxt) list_item_s || re_list_like env (c :: text));
      [| by exists []].
    destruct (lookahead env tl) as [texts after].
    destruct IH as (merged & Htl & Hchars). cbn [fst snd] in *.
    exists (nxt :: merged). split.
    + cbn. by rewrite <- Htl.
    + unfold chars in *. rewrite bind_cons, Hchars, input_chars_cons.
      by rewrite <- nonspace_stripped_text, Htext.
Qed.

(** *** One round of the loop *)

(** The lead-in case reads a prefix of the elements that follow, and adds
    its characters to the text. *)
Lemma lead_in_prefix (text : str) (rest : list Element) :
  ∃ merged,
    rest = merged ++ (lead_in env text rest).2
    ∧ nonspace (lead_in env text rest).1 = nonspace text ++ input_chars merged.
Proof.
  unfold lead_in.
  destruct (re_colon_end _ && _);
    [| exists []; cbn; by rewrite app_nil_r].
  destruct (lookahead_prefix rest) as (merged & Hrest & Hchars).
  destruct (lookahead env rest) as [[|t ts] after]; cbn [fst snd] in *.
  - exists []. cbn. by rewrite app_nil_r.
  - exists merged. split; [done |].
    by rewrite !nonspace_app, nonspace_newline, nonspace_join, Hchars.
Qed.

(** A round reads a non-empty prefix of the elements left and adds exactly
    its characters to those held. *)
Lemma step_reads_prefix (max_chars : Z) (el : Element) (rest : list Element)
    (st : State) :
  ∃ read,
    el :: rest = read ++ (step env max_chars el rest st).2
    ∧ read ≠ []
    ∧ held (step env max_chars el rest st).1 ≡ₚ held st ++ input_chars read.
Proof.
  unfold step.
  destruct (stripped_text el) as [|c text0] eqn:Htext.
  { exists [el]. cbn [fst snd]. split_and!; [done | done |].
    rewrite input_chars_cons, <- nonspace_stripped_text, Htext.
    cbn. by rewrite !app_nil_r. }
  destruct (lead_in_prefix (c :: text0) rest) as (merged & Hrest & Hmerged).
  destruct (lead_in env (c :: text0) rest) as [text next]. cbn [fst snd] in *.
  assert (nonspace text = input_chars (el :: merged)) as Htxt.
  { by rewrite Hmerged, input_chars_cons, <- nonspace_stripped_text, Htext. }
  assert (el :: rest = (el :: merged) ++ next) as Hread
    by (cbn; by rewrite <- Hrest).
  set (read := el :: merged) in *.
  assert (read ≠ []) as Hne by done. clearbody read.
  exists read. split; [| split; [done |]].
  - by destruct (is_fragment env text && _).
  - destruct (is_fragment env text && negb (bool_decide (chunks st = [])))
      eqn:Hfrag; cbn [fst snd]; unfold held; cbn [chunks current_chunk].
    + apply andb_prop in Hfrag as [_ Hchunks].
      apply negb_true_iff, bool_decide_eq_false in Hchunks.
      rewrite chars_append_to_last by done. rewrite <- Htxt.
      rewrite <- !app_assoc. apply Permutation_app_head, Permutation_app_comm.
    + rewrite <- Htxt.
      destruct (must_split max_chars st text (el_type el));
        cbn [chunks current_chunk].
      * rewrite chars_app, chars_singleton, nonspace_strip.
        cbn [app]. by rewrite <- app_assoc.
      * rewrite !nonspace_app.
        assert (nonspace match current_chunk st with
                         | [] => []
                         | _ :: _ => newline
                         end = []) as -> by (by destruct (current_chunk st)).
        cbn [app]. by rewrite <- app_assoc.
Qed.

(** *** The whole loop *)

(** With as many rounds as there are elements the loop has read them all:
    what is held then is what was held before with the characters of the
    elements. *)
Lemma run_reads_all (fuel : nat) (max_chars : Z) (els : list Element)
    (st : State) :
  length els ≤ fuel →
  held (run env fuel max_chars els st) ≡ₚ held st ++ input_chars els.
Proof.
  revert els st. induction fuel as [|fuel IH]; intros els st Hlen.
  - destruct els; [| cbn in Hlen; lia]. cbn. by rewrite app_nil_r.
  - destruct els as [|el rest]; [cbn; by rewrite app_nil_r |].
    cbn [run].
    destruct (step_reads_prefix max_chars el rest st) as (read & Hread & Hne & Hperm).
    destruct (step env max_chars el rest st) as [st' next]. cbn [fst snd] in *.
    rewrite IH.
    + rewrite Hperm, Hread, input_chars_app. by rewrite <- app_assoc.
    + apply (f_equal length) in Hread. rewrite length_app in Hread.
      cbn in Hlen, Hread. destruct read; [done |]. cbn in Hread. lia.
Qed.

(** More rounds than elements change nothing. *)
Lemma run_fuel_enough (fuel : nat) (max_chars : Z) (els : list Element)
    (st : State) :
  length els ≤ fuel →
  run env fuel max_chars els st = run env (length els) max_chars els st.
Proof.
  revert fuel st. induction els as [els IH] using (induction_ltof1 _ length).
  intros fuel st Hlen. destruct els as [|el rest]; [by destruct fuel |].
  destruct fuel as [|fuel]; [cbn in Hlen; lia |]. cbn [run length].
  destruct (step_reads_prefix max_chars el rest st) as (read & Hread & Hne & _).
  destruct (step env max_chars el rest st) as [st' next]. cbn [fst snd] in *.
  assert (length next ≤ length rest) as Hnext.
  { apply (f_equal length) in Hread. rewrite length_app in Hread.
    destruct read; [done |]. cbn in Hread. lia. }
  rewrite (IH next) by (unfold ltof; cbn in *; lia).
  symmetry. apply IH; unfold ltof; cbn in *; lia.
Qed.

Lemma unfiltered_chunks_chars (elements : list Element) (max_chars : Z) :
  chars (unfiltered_chunks env elements max_chars) ≡ₚ input_chars elements.
Proof.
  unfold unfiltered_chunks.
  pose proof (run_reads_all (length elements) max_chars elements initial
                (le_n _)) as Hrun.
  unfold held in Hrun. cbn [initial chunks current_chunk] in Hrun.
  rewrite <- (nonspace_strip (current_chunk _)) in Hrun.
  destruct (strip (current_chunk _)) as [|c text].
  - by rewrite app_nil_r in Hrun.
  - by rewrite chars_app, chars_singleton.
Qed.

End Chunker.

Lemma chars_filter_split (P : str → bool) (l : list str) :
  chars l ≡ₚ chars (filter (λ c, P c = true) l)
            ++ chars (filter (λ c, P c = false) l).
Proof.
  induction l as [|c l IH]; [done |].
  rewrite !filter_cons. unfold chars in *. rewrite bind_cons.
  destruct (P c) eqn:Hc.
  - rewrite decide_True, decide_False by done.
    rewrite bind_cons, <- app_assoc. by apply Permutation_app_head.
  - rewrite decide_False, decide_True by done.
    rewrite bind_cons, IH. by rewrite Permutation_app_swap_app.
Qed.

(** C9: counted with their multiplicity, the non-whitespace characters of
    the elements are those of the chunks returned together with those of
    the chunks the last filter drops; the returned chunks have more than
    five words and the dropped ones five or fewer.  So each occurrence of a
    character is in one chunk, and in one only. *)
Theorem chunker_covers_input {W Store : Type} (env : Env W Store)
    (elements : list Element) (max_chars : Z) :
  input_chars elements
  ≡ₚ chars (chunk_elements env elements max_chars)
     ++ chars (discarded_chunks env elements max_chars)
  ∧ Forall (λ c, (5 < words c)%Z) (chunk_elements env elements max_chars)
  ∧ Forall (λ c, (words c ≤ 5)%Z) (discarded_chunks env elements max_chars).
Proof.
  split; [| split].
  - rewrite <- (unfiltered_chunks_chars env elements max_chars).
    apply (chars_filter_split long_enough).
  - apply Forall_forall. intros c [Hc _]%list_elem_of_filter.
    unfold long_enough in Hc. lia.
  - apply Forall_forall. intros c [Hc _]%list_elem_of_filter.
    unfold long_enough in Hc. lia.
Qed.

End ChunkerFacts.

(** ** The query handler, call after call *)

Module SessionFacts.

Import RagHelper Main Notions Status.

Section Handlers.
Context {W Store : Type} (env : Env W Store).

(** The four ways a call of [get_chunk] ends: nothing cached (retrieval
    raised or found nothing), the session evicted, a chunk of the session
    served, a session created and its first chunk served. *)
Inductive Outcome (file topic : option str)
    (chunk_cache : gmap (list N) Session) (w : W)
    : gmap (list N) Session → W → Prop :=
| NothingCached w' :
    chunk_cache !! cache_key file topic = None →
    Outcome file topic chunk_cache w chunk_cache w'
| Evicted s :
    chunk_cache !! cache_key file topic = Some s →
    remaining_of s = [] →
    Outcome file topic chunk_cache w
      (delete (cache_key file topic) chunk_cache) w
| ServedFrom s i c :
    chunk_cache !! cache_key file topic = Some s →
    s_chunks s !! i = Some c →
    c ∈ remaining_of s →
    Outcome file topic chunk_cache w
      (<[cache_key file topic := mark_served i s]> chunk_cache) w
| CreatedWith w' result i c :
    chunk_cache !! cache_key file topic = None →
    get_relevant_chunks env file topic 5 w = (w', inr result) →
    context_chunks result !! i = Some c →
    Outcome file topic chunk_cache w
      (<[cache_key file topic :=
           {| s_file := file; s_topic := topic;
              s_chunks := context_chunks result; s_served := {[ i ]};
              s_mode := mode result |}]> chunk_cache) w'.

Lemma get_chunk_outcome (r : nat) (file topic : option str)
    (chunk_cache : gmap (list N) Session) (w : W) :
  ∃ resp cache' w',
    get_chunk env r file topic chunk_cache w = (inr resp, cache', w')
    ∧ Outcome file topic chunk_cache w cache' w'.
Proof.
  unfold get_chunk.
  destruct (chunk_cache !! cache_key file topic) as [s |] eqn:Hs.
  - destruct (remaining_of s) as [|c0 rest] eqn:Hrem.
    + eexists _, _, _. split; [done |]. by eapply Evicted.
    + pose proof (CacheFacts.choice_elem_of r c0 rest) as Hin.
      rewrite <- Hrem in Hin.
      assert (choice r c0 rest ∈ s_chunks s) as Hmem.
      { apply CacheFacts.remaining_from_elem_of in Hin as (j & Hj & _).
        by eapply list_elem_of_lookup_2. }
      destruct (CacheFacts.index_elem_of _ _ Hmem) as [i Hi]. rewrite Hi.
      apply CacheFacts.index_Some in Hi as [Hi _].
      eexists _, _, _. split; [done |]. by eapply ServedFrom.
  - destruct (get_relevant_chunks env file topic 5 w) as [w' [e | result]] eqn:Hget.
    + eexists _, _, _. split; [done |]. by apply NothingCached.
    + destruct (context_chunks result) as [|c0 rest] eqn:Hchunks.
      * eexists _, _, _. split; [done |]. by apply NothingCached.
      * destruct (CacheFacts.index_elem_of _ _ (CacheFacts.choice_elem_of r c0 rest))
          as [i Hi].
        rewrite Hi. apply CacheFacts.index_Some in Hi as [Hi _].
        eexists _, _, _. split; [done |].
        rewrite alter_insert_eq, CacheFacts.mark_served_fresh.
        rewrite <- Hchunks in Hi |- *. by eapply CreatedWith.
Qed.

(** X1: [get_chunk] never raises.  The chunk drawn is one of the chunks of
    the session, so [list.index] finds it, and what retrieval raises is
    caught: every call ends with a response. *)
Theorem get_chunk_always_responds (r : nat) (file topic : option str)
    (chunk_cache : gmap (list N) Session) (w : W) :
  ∃ resp, (get_chunk env r file topic chunk_cache w).1.1 = inr resp.
Proof.
  destruct (get_chunk_outcome r file topic chunk_cache w)
    as (resp & cache' & w' & -> & _).
  by exists resp.
Qed.

(** X2: a call of [get_chunk] leaves the sessions of all other keys as
    they are. *)
Theorem get_chunk_touches_own_key_only (r : nat) (file topic : option str)
    (chunk_cache : gmap (list N) Session) (w : W) (key : list N) :
  key ≠ cache_key file topic →
  (get_chunk env r file topic chunk_cache w).1.2 !! key = chunk_cache !! key.
Proof.
  intros Hkey.
  destruct (get_chunk_outcome r file topic chunk_cache w)
    as (resp & cache' & w' & -> & Hout).
  cbn [fst snd]. destruct Hout.
  - done.
  - by rewrite lookup_delete_ne.
  - by rewrite lookup_insert_ne.
  - by rewrite lookup_insert_ne.
Qed.

(** A cache hit does not call retrieval and leaves the outside world
    (note files, vector store) as it is. *)
Theorem cache_hit_leaves_world (r : nat) (file topic : option str)
    (chunk_cache : gmap (list N) Session) (w : W) :
  is_Some (chunk_cache !! cache_key file topic) →
  (get_chunk env r file topic chunk_cache w).2 = w.
Proof.
  intros [s Hs].
  destruct (get_chunk_outcome r file topic chunk_cache w)
    as (resp & cache' & w' & -> & Hout).
  cbn [snd]. destruct Hout; congruence.
Qed.

Lemma session_ok_mark_served (i : nat) (c : str) (s : Session) :
  session_ok s → s_chunks s !! i = Some c → session_ok (mark_served i s).
Proof.
  intros [Hne Hin] Hi. split; [done |]. cbn. intros j.
  rewrite elem_of_union, elem_of_singleton. intros [-> | Hj].
  - by eapply lookup_lt_Some.
  - by apply Hin.
Qed.

(** X3: [get_chunk] keeps the cache well formed: in every session the
    chunk list is not empty and the indices marked as served are positions
    of that list. *)
Theorem get_chunk_keeps_cache_ok (r : nat) (file topic : option str)
    (chunk_cache : gmap (list N) Session) (w : W) :
  cache_ok chunk_cache →
  cache_ok (get_chunk env r file topic chunk_cache w).1.2.
Proof.
  intros Hok.
  destruct (get_chunk_outcome r file topic chunk_cache w)
    as (resp & cache' & w' & -> & Hout).
  cbn [fst snd]. unfold cache_ok in *. destruct Hout as [| | s i c Hs Hi _ | ? result i c _ _ Hi].
  - done.
  - by apply map_Forall_delete.
  - apply map_Forall_insert_2; [| done].
    eapply session_ok_mark_served; [| done]. by eapply (Hok _ s).
  - apply map_Forall_insert_2; [| done]. split; cbn.
    + intros Hnil. by rewrite Hnil in Hi.
    + intros j ->%elem_of_singleton. by eapply lookup_lt_Some.
Qed.

End Handlers.

(** *** What is left of a session *)

Lemma remaining_from_ext (i0 : nat) (chunks : list str) (A B : gset nat) :
  (∀ j, i0 ≤ j → j ∈ A ↔ j ∈ B) →
  remaining_from i0 chunks A = remaining_from i0 chunks B.
Proof.
  revert i0. induction chunks as [|x chunks IH]; intros i0 Hext; cbn; [done |].
  rewrite (IH (S i0)) by (intros j Hj; apply Hext; lia).
  destruct (decide (i0 ∈ A)) as [HA | HA].
  - rewrite !bool_decide_true; [done | by apply Hext | done].
  - rewrite !bool_decide_false; [done | | done].
    intros HB. apply HA. by apply Hext.
Qed.

(** Marking an unserved position takes its chunk, and no other, out of
    the remaining ones. *)
Lemma remaining_from_mark (i0 i : nat) (chunks : list str) (served : gset nat)
    (c : str) :
  chunks !! i = Some c → i0 + i ∉ served →
  remaining_from i0 chunks served
  ≡ₚ c :: remaining_from i0 chunks ({[ i0 + i ]} ∪ served).
Proof.
  revert i0 i. induction chunks as [|x chunks IH]; intros i0 i Hi Hns; [done |].
  destruct i as [|i]; cbn in Hi |- *.
  - injection Hi as ->. rewrite Nat.add_0_r in Hns |- *.
    rewrite bool_decide_false by done.
    rewrite bool_decide_true by set_solver.
    rewrite (remaining_from_ext (S i0) chunks served ({[ i0 ]} ∪ served)); [done |].
    intros j Hj. rewrite elem_of_union, elem_of_singleton.
    split; [by right | intros [-> | ?]; [lia | done]].
  - replace (i0 + S i) with (S i0 + i) in Hns |- * by lia.
    specialize (IH (S i0) i Hi Hns).
    destruct (decide (i0 ∈ served)) as [Hin | Hin].
    + rewrite !bool_decide_true; [done | set_solver | done].
    + rewrite !bool_decide_false; [| | done].
      * rewrite IH. apply perm_swap.
      * rewrite elem_of_union, elem_of_singleton. intros [? | ?]; [lia | done].
Qed.

Lemma remaining_of_mark_served (i : nat) (c : str) (s : Session) :
  s_chunks s !! i = Some c → i ∉ s_served s →
  remaining_of s ≡ₚ c :: remaining_of (mark_served i s).
Proof. intros Hi Hns. by apply (remaining_from_mark 0 i). Qed.

Lemma remaining_from_length (chunks : list str) (served : gset nat) :
  (∀ i, i ∈ served → i < length chunks) →
  length (remaining_from 0 chunks served) + size served = length chunks.
Proof.
  pattern served. apply set_ind_L; clear served.
  - intros _. by rewrite CacheFacts.remaining_from_empty, size_empty.
  - intros x X Hx IH Hin.
    destruct (lookup_lt_is_Some_2 chunks x) as [c Hc]; [apply Hin; set_solver |].
    pose proof (remaining_from_mark 0 x chunks X c Hc Hx) as Hperm.
    apply Permutation_length in Hperm. cbn in Hperm.
    rewrite size_union, size_singleton by set_solver.
    specialize (IH ltac:(intros i Hi; apply Hin; set_solver)). lia.
Qed.

(** X4: for every session of a well-formed cache, the [remaining] count
    that [cache_status] reports ([len(chunks) - len(served)]) is the number
    of chunks that [get_chunk] still has to serve from it, and
    [total_chunks] and [served] are the sizes of the chunk list and of the
    served set; an empty cache is reported as empty, a non-empty one never
    is. *)
Theorem cache_status_counts (chunk_cache : gmap (list N) Session) :
  cache_ok chunk_cache →
  (chunk_cache = ∅ ↔ cache_status chunk_cache = CacheEmpty)
  ∧ ∀ key s,
      chunk_cache !! key = Some s →
      ∃ caches sm,
        cache_status chunk_cache = ActiveCaches caches
        ∧ dom caches = dom chunk_cache
        ∧ caches !! key = Some sm
        ∧ sm_remaining sm = len (remaining_of s)
        ∧ sm_total_chunks sm = len (s_chunks s)
        ∧ sm_served sm = Z.of_nat (size (s_served s))
        ∧ (sm_mode sm, sm_file sm, sm_topic sm) = (s_mode s, s_file s, s_topic s).
Proof.
  intros Hok. unfold cache_status. split.
  - rewrite <- map_size_empty_iff. by case_bool_decide.
  - intros key s Hs.
    rewrite bool_decide_false.
    2: { rewrite map_size_empty_iff. intros ->. by rewrite lookup_empty in Hs. }
    exists (summary <$> chunk_cache), (summary s).
    split_and!; try done.
    + apply dom_fmap_L.
    + by rewrite lookup_fmap, Hs.
    + destruct (Hok key s Hs) as [_ Hin]. cbn. unfold len, remaining_of.
      pose proof (remaining_from_length _ _ Hin). lia.
Qed.

(** X5: a session whose chunks are pairwise different is served out
    without repetition.  As many calls as it has chunks left serve exactly
    those chunks, each once, whatever is drawn; they leave the outside
    world alone; and the call after them evicts the session and answers
    that all chunks were served. *)
Theorem distinct_chunks_served_once {W Store : Type} (env : Env W Store)
    (rs : list nat) (r : nat) (file topic : option str)
    (chunk_cache : gmap (list N) Session) (w : W) (s : Session) :
  chunk_cache !! cache_key file topic = Some s →
  NoDup (s_chunks s) →
  length rs = length (remaining_of s) →
  let run := queries env rs file topic chunk_cache w in
  served_chunks run.1.1 ≡ₚ remaining_of s
  ∧ get_chunk env r file topic run.1.2 run.2
    = (inr [("message"%string, JStr msg_cleared)],
       delete (cache_key file topic) chunk_cache, w).
Proof.
  revert chunk_cache s. induction rs as [|r0 rs IH]; intros chunk_cache s Hs Hnd Hlen.
  - cbn. destruct (remaining_of s) eqn:Hrem; [| done]. split; [done |].
    unfold get_chunk. by rewrite Hs, Hrem.
  - destruct (remaining_of s) as [|c0 rem] eqn:Hrem; [done |].
    assert (c0 ∈ remaining_of s) as Hc0 by (rewrite Hrem; left).
    apply CacheFacts.remaining_from_elem_of in Hc0 as (j & Hj & Hjs).
    destruct (CacheFacts.hit_distinct_serves_unserved env r0 file topic
                chunk_cache w s j Hs Hnd)
      as (i & chunk & Hi & His & Hget);
      [by eapply lookup_lt_Some | done |].
    pose proof (remaining_of_mark_served i chunk s Hi His) as Hperm.
    specialize (IH (<[cache_key file topic := mark_served i s]> chunk_cache)
                  (mark_served i s)).
    destruct IH as [IHserved IHlast].
    { apply lookup_insert_eq. }
    { done. }
    { apply Permutation_length in Hperm. rewrite Hrem in Hperm.
      cbn [length] in Hperm, Hlen. lia. }
    cbn [queries]. rewrite Hget.
    destruct (queries env rs file topic _ w) as [[outs cache2] w2].
    cbn [fst snd] in *. split.
    + rewrite <- Hrem. symmetry. etrans; [exact Hperm |].
      symmetry.
      change (chunk :: served_chunks outs
              ≡ₚ chunk :: remaining_of (mark_served i s)).
      by constructor.
    + by rewrite IHlast, delete_insert_eq.
Qed.

(** X6: [clear_cache] and [stop_session] remove the session of their key,
    and no other; they say that they did exactly when there was one; after
    either of them the key has no session, so that a second call finds
    nothing and changes nothing. *)
Theorem clear_and_stop_evict (file topic : option str)
    (chunk_cache : gmap (list N) Session) :
  let key := cache_key file topic in
  let cleared := clear_cache file topic chunk_cache in
  let stopped := stop_session file topic chunk_cache in
  cleared.2 = delete key chunk_cache
  ∧ stopped.2 = delete key chunk_cache
  ∧ (cleared.1 = [("message"%string, JStr (msg_clear_done file topic))]
     ↔ is_Some (chunk_cache !! key))
  ∧ (stopped.1 = [("message"%string, JStr msg_stopped)]
     ↔ is_Some (chunk_cache !! key))
  ∧ clear_cache file topic cleared.2
    = ([("message"%string, JStr msg_clear_none)], cleared.2)
  ∧ stop_session file topic stopped.2
    = ([("message"%string, JStr msg_stop_none)], stopped.2).
Proof.
  cbn zeta. unfold clear_cache, stop_session.
  destruct (chunk_cache !! cache_key file topic) as [s |] eqn:Hs; cbn [fst snd].
  - rewrite lookup_delete_eq. split_and!; try done; split; eauto.
  - rewrite Hs, delete_id by done.
    split_and!; try done; split; try (by intros [? ?]); intros [=].
Qed.

(** *** Runs on a cache with one session *)

Lemma pair_cache_ok : cache_ok pair_cache.
Proof.
  apply map_Forall_singleton. split; [done |].
  intros i Hi. cbn in Hi. by apply elem_of_empty in Hi.
Qed.

Lemma get_chunk_touches_own_key_only_witness :
  (get_chunk Demo.env 0 None (Some (py "sets")) pair_cache Demo.corpus).1.2
    !! cache_key (Some (py "sets.md")) None
  = pair_cache !! cache_key (Some (py "sets.md")) None.
Proof.
  apply (get_chunk_touches_own_key_only Demo.env 0 None (Some (py "sets"))
           pair_cache Demo.corpus).
  intros H. vm_compute in H. discriminate H.
Defined.

Lemma cache_hit_leaves_world_witness :
  (get_chunk Demo.env 1 (Some (py "sets.md")) None pair_cache Demo.corpus).2
  = Demo.corpus.
Proof.
  apply (cache_hit_leaves_world Demo.env 1 (Some (py "sets.md")) None
           pair_cache Demo.corpus).
  exists pair_session. apply lookup_singleton_eq.
Defined.

Lemma get_chunk_keeps_cache_ok_witness :
  cache_ok
    (get_chunk Demo.env 0 None (Some (py "sets")) pair_cache Demo.corpus).1.2.
Proof.
  apply (get_chunk_keeps_cache_ok Demo.env 0 None (Some (py "sets"))
           pair_cache Demo.corpus).
  exact pair_cache_ok.
Defined.

Lemma cache_status_counts_witness :
  (pair_cache = ∅ ↔ cache_status pair_cache = CacheEmpty)
  ∧ ∀ key s,
      pair_cache !! key = Some s →
      ∃ caches sm,
        cache_status pair_cache = ActiveCaches caches
        ∧ dom caches = dom pair_cache
        ∧ caches !! key = Some sm
        ∧ sm_remaining sm = len (remaining_of s)
        ∧ sm_total_chunks sm = len (s_chunks s)
        ∧ sm_served sm = Z.of_nat (size (s_served s))
        ∧ (sm_mode sm, sm_file sm, sm_topic sm) = (s_mode s, s_file s, s_topic s).
Proof. apply (cache_status_counts pair_cache). exact pair_cache_ok. Defined.

Lemma distinct_chunks_served_once_witness :
  let run :=
    queries Demo.env [1; 0] (Some (py "sets.md")) None pair_cache Demo.corpus in
  served_chunks run.1.1 ≡ₚ remaining_of pair_session
  ∧ get_chunk Demo.env 0 (Some (py "sets.md")) None run.1.2 run.2
    = (inr [("message"%string, JStr msg_cleared)],
       delete (cache_key (Some (py "sets.md")) None) pair_cache, Demo.corpus).
Proof.
  apply (distinct_chunks_served_once Demo.env [1; 0] 0 (Some (py "sets.md"))
           None pair_cache Demo.corpus pair_session).
  - apply lookup_singleton_eq.
  - apply NoDup_cons. split; [| apply NoDup_singleton].
    intros H%list_elem_of_singleton. discriminate H.
  - reflexivity.
Defined.

(** X17: a cache hit on a session with chunks left reports the chunk it
    serves, the position of that chunk in the session counted from 1 (the
    first position that holds an equal chunk), and the number of chunks
    left after it; the position is marked as served and nothing else of
    the session changes. *)
Theorem hit_reports_first_position {W Store : Type} (env : Env W Store)
    (r : nat) (file topic : option str)
    (chunk_cache : gmap (list N) Session) (w : W) (s : Session) :
  chunk_cache !! cache_key file topic = Some s →
  remaining_of s ≠ [] →
  ∃ (i : nat) (c : str) (resp : list (string * jvalue)),
    get_chunk env r file topic chunk_cache w
    = (inr resp, <[cache_key file topic := mark_served i s]> chunk_cache, w)
    ∧ c ∈ remaining_of s
    ∧ s_chunks s !! i = Some c
    ∧ (∀ j, j < i → s_chunks s !! j ≠ Some c)
    ∧ resp_get "chunk" resp = Some (JStr c)
    ∧ resp_get "chunk_index" resp = Some (JInt (Z.of_nat i + 1))
    ∧ resp_get "remaining" resp = Some (JInt (len (remaining_of s) - 1))
    ∧ resp_get "message" resp = Some (JStr msg_served).
Proof.
  intros Hs Hrem. unfold get_chunk. rewrite Hs.
  destruct (remaining_of s) as [|c0 rest] eqn:Hleft; [done |].
  pose proof (CacheFacts.choice_elem_of r c0 rest) as Hin.
  assert (choice r c0 rest ∈ s_chunks s) as Hmem.
  { rewrite <- Hleft in Hin.
    apply CacheFacts.remaining_from_elem_of in Hin as (j & Hj & _).
    by eapply list_elem_of_lookup_2. }
  destruct (CacheFacts.index_elem_of _ _ Hmem) as [i Hi]. rewrite Hi.
  apply CacheFacts.index_Some in Hi as [Hi Hfirst].
  exists i, (choice r c0 rest). eexists. split; [done |].
  split_and!; done.
Qed.

Lemma hit_reports_first_position_witness :
  ∃ (i : nat) (c : str) (resp : list (string * jvalue)),
    get_chunk Demo.env 1 (Some (py "sets.md")) None pair_cache Demo.corpus
    = (inr resp,
       <[cache_key (Some (py "sets.md")) None := mark_served i pair_session]>
         pair_cache,
       Demo.corpus)
    ∧ c ∈ remaining_of pair_session
    ∧ s_chunks pair_session !! i = Some c
    ∧ (∀ j, j < i → s_chunks pair_session !! j ≠ Some c)
    ∧ resp_get "chunk" resp = Some (JStr c)
    ∧ resp_get "chunk_index" resp = Some (JInt (Z.of_nat i + 1))
    ∧ resp_get "remaining" resp
      = Some (JInt (len (remaining_of pair_session) - 1))
    ∧ resp_get "message" resp = Some (JStr msg_served).
Proof.
  apply (hit_reports_first_position Demo.env 1 (Some (py "sets.md")) None
           pair_cache Demo.corpus pair_session).
  - apply lookup_singleton_eq.
  - discriminate.
Defined.

End SessionFacts.

(** ** What the deduplicator and the router return *)

Module RetrievalFacts.

Import RagHelper Main Notions.

(** *** The deduplicator, on the whole output *)

Lemma dedup_pairwise (chunks : list str) (threshold : float)
    (i j : nat) (u c : str) :
  i < j →
  deduplicate_semantic chunks threshold !! i = Some u →
  deduplicate_semantic chunks threshold !! j = Some c →
  is_similar c u threshold = false.
Proof.
  revert i j u c. induction chunks as [|c0 chunks IH] using rev_ind;
    intros i j u c Hij Hi Hj; [done |].
  rewrite DedupFacts.deduplicate_semantic_snoc in Hi, Hj. cbn zeta in Hi, Hj.
  destruct (existsb _ (deduplicate_semantic chunks threshold)) eqn:Hex;
    [exact (IH i j u c Hij Hi Hj) |].
  pose proof (lookup_lt_Some _ _ _ Hj) as Hlt.
  rewrite length_app in Hlt. cbn in Hlt.
  destruct (decide (j < length (deduplicate_semantic chunks threshold)))
    as [Hin | Hout].
  - rewrite lookup_app_l in Hi, Hj by lia. exact (IH i j u c Hij Hi Hj).
  - assert (j = length (deduplicate_semantic chunks threshold)) as -> by lia.
    rewrite list_lookup_middle in Hj by done. injection Hj as <-.
    rewrite lookup_app_l in Hi by lia.
    apply DedupFacts.existsb_similar_false in Hex.
    by apply (Forall_lookup_1 _ _ _ _ Hex Hi).
Qed.

Lemma dedup_covers (chunks : list str) (threshold : float) (c : str) :
  c ∈ chunks →
  c ∈ deduplicate_semantic chunks threshold
  ∨ ∃ u, u ∈ deduplicate_semantic chunks threshold
         ∧ is_similar c u threshold = true.
Proof.
  induction chunks as [|c0 chunks IH] using rev_ind; [by intros ?%elem_of_nil |].
  rewrite DedupFacts.deduplicate_semantic_snoc. cbn zeta.
  intros [Hin | ->%list_elem_of_singleton]%elem_of_app.
  - destruct (IH Hin) as [Hkept | (u & Hu & Hsim)];
      destruct (existsb _ (deduplicate_semantic chunks threshold));
      try (by left); try (left; apply elem_of_app; by left);
      right; exists u; (split; [| done]); [done | apply elem_of_app; by left].
  - destruct (existsb _ (deduplicate_semantic chunks threshold)) eqn:Hex.
    + right. apply existsb_exists in Hex as (u & Hu & Hsim).
      exists u. split; [by apply list_elem_of_In | done].
    + left. apply elem_of_app. right. by apply list_elem_of_singleton.
Qed.

Lemma dedup_head (chunks : list str) (threshold : float) :
  head (deduplicate_semantic chunks threshold) = head chunks.
Proof.
  destruct chunks as [|c chunks]; [done |].
  unfold deduplicate_semantic. cbn.
  destruct (DedupFacts.dedup_loop_sublist chunks [c] threshold) as (kept & -> & _).
  done.
Qed.

(** *** Stripped strings *)

Lemma lstrip_head (s : str) (a : N) (t : str) :
  lstrip s = a :: t → isspace a = false.
Proof.
  induction s as [|c s IH]; cbn; [done |].
  destruct (isspace c) eqn:Hc; [done |]. intros [= -> _]. done.
Qed.

Lemma lstrip_idemp (s : str) : lstrip (lstrip s) = lstrip s.
Proof.
  induction s as [|c s IH]; cbn; [done |].
  destruct (isspace c) eqn:Hc; [done |]. cbn. by rewrite Hc.
Qed.

Lemma lstrip_snoc (l : str) (a : N) :
  isspace a = false → lstrip (l ++ [a]) = lstrip l ++ [a].
Proof.
  intros Ha. induction l as [|c l IH]; cbn; [by rewrite Ha |].
  by destruct (isspace c).
Qed.

Lemma rstrip_cons (a : N) (t : str) :
  isspace a = false → rstrip (a :: t) = a :: rstrip t.
Proof.
  intros Ha. unfold rstrip. cbn [rev].
  by rewrite lstrip_snoc, rev_app_distr.
Qed.

Lemma rstrip_idemp (s : str) : rstrip (rstrip s) = rstrip s.
Proof. unfold rstrip. by rewrite rev_involutive, lstrip_idemp. Qed.

Lemma strip_idemp (s : str) : strip (strip s) = strip s.
Proof.
  unfold strip. destruct (lstrip s) as [|a t] eqn:Hs; [done |].
  pose proof (lstrip_head _ _ _ Hs) as Ha.
  rewrite rstrip_cons by done. cbn [lstrip]. rewrite Ha.
  by rewrite rstrip_cons, rstrip_idemp.
Qed.

(** A chunk as the router returns it: not empty, and with no whitespace
    at either end. *)
Lemma stripped_nonempty_clean (docs : list str) :
  Forall (λ c, c ≠ [] ∧ strip c = c) (stripped_nonempty docs).
Proof.
  apply Forall_forall. intros c Hc. unfold stripped_nonempty in Hc.
  apply list_elem_of_omap in Hc as (d & _ & Hd).
  destruct (strip d) as [|a t] eqn:Hs; [done |]. injection Hd as <-.
  split; [done |]. by rewrite <- Hs, strip_idemp.
Qed.

Section Router.
Context {W Store : Type} (env : Env W Store).

Lemma retrieve_from_clean (file topic : str) (k : Z) (w w' : W)
    (found : list str) :
  retrieve_from env file topic k w = (w', inr found) →
  Forall (λ c, c ≠ [] ∧ strip c = c) found.
Proof.
  unfold retrieve_from, bind, calling, external, ret.
  destruct (build_vectorstore env file w) as [w1 [e | st]]; [done |].
  destruct (retriever_invoke env w1 st topic k) as [w2 [m | docs]]; cbn;
    [done |].
  intros [= _ <-]. apply stripped_nonempty_clean.
Qed.

Lemma answered_clean (files : list str) (topic : str) (k : Z) (w : W) :
  Forall (λ c, c ≠ [] ∧ strip c = c) (answered env files topic k w).
Proof.
  revert w. induction files as [|file rest IH]; intros w; cbn [answered];
    [constructor |].
  destruct (is_supported file); [| apply IH].
  destruct (retrieve_from env file topic k w) as [w1 [e | found]] eqn:Hr;
    [apply IH |].
  apply Forall_app. split; [by eapply retrieve_from_clean | apply IH].
Qed.

(** The three ways the router returns a result. *)
Lemma get_relevant_chunks_success (file_name topic : option str) (k : Z)
    (w w' : W) (res : RetrievalResult) :
  get_relevant_chunks env file_name topic k w = (w', inr res) →
  (truthy file_name = true ∧ truthy topic = false
   ∧ ∃ docs, res = {| mode := mode_file_only; file := file_name; topic := None;
                      total_chunks := length (stripped_nonempty docs);
                      context_chunks := stripped_nonempty docs |})
  ∨ (truthy file_name = false ∧ truthy topic = true
     ∧ ∃ found, Forall (λ c, c ≠ [] ∧ strip c = c) found
                ∧ res = {| mode := mode_topic_only; file := None; topic := topic;
                           total_chunks := length (dict_fromkeys found);
                           context_chunks := dict_fromkeys found |})
  ∨ (truthy file_name = true ∧ truthy topic = true
     ∧ ∃ docs,
         let chunks := deduplicate_semantic (stripped_nonempty docs)
                         default_threshold in
         res = {| mode := mode_file_and_topic; file := file_name; topic := topic;
                  total_chunks := length chunks; context_chunks := chunks |}).
Proof.
  unfold get_relevant_chunks.
  destruct (truthy file_name) eqn:Hf, (truthy topic) eqn:Ht;
    cbn [negb andb]; [| | | done].
  - intros H. right; right. split_and!; [done | done |]. revert H.
    unfold bind.
    destruct (build_vectorstore env _ w) as [w1 [e | st]]; [done |].
    unfold calling, external.
    destruct (retriever_invoke env w1 st _ k) as [w2 [m | docs]]; cbn;
      [done |].
    intros [= _ <-]. by exists docs.
  - intros H. left. split_and!; [done | done |]. revert H.
    destruct (note_exists env w _); cbn; [| done].
    unfold bind.
    destruct (safe_partition env _ w) as [w1 [e | els]]; [done |].
    intros [= _ <-]. by eexists.
  - intros H. right; left. split_and!; [done | done |]. revert H.
    unfold bind at 1. unfold reading, external.
    destruct (listdir_notes env w) as [m | files]; cbn; [done |].
    unfold bind.
    destruct (RouterFacts.topic_loop_answered env files (default [] topic) k [] w)
      as [w1 ->].
    intros [= _ <-]. eexists. split; [| done]. apply answered_clean.
Qed.

Lemma Forall_sublist {A} (P : A → Prop) (l k : list A) :
  sublist l k → Forall P k → Forall P l.
Proof.
  intros Hsub Hk. apply Forall_forall. intros x Hx.
  eapply (proj1 (Forall_forall P k) Hk).
  eapply elem_of_submseteq; [done | by apply sublist_submseteq].
Qed.

(** X7: a result of the router tells its mode by which parameters were
    given, echoes the parameters that were given and [None] for the others
    (an empty string is echoed as [None]), and counts its chunks. *)
Theorem router_result_shape (file_name topic : option str) (k : Z)
    (w w' : W) (res : RetrievalResult) :
  get_relevant_chunks env file_name topic k w = (w', inr res) →
  total_chunks res = length (context_chunks res)
  ∧ mode res = (if truthy file_name
                then if truthy topic then mode_file_and_topic else mode_file_only
                else mode_topic_only)
  ∧ file res = (if truthy file_name then file_name else None)
  ∧ RagHelper.topic res = (if truthy topic then topic else None)
  ∧ (truthy file_name = true ∨ truthy topic = true).
Proof.
  intros [(-> & -> & docs & ->) | [(-> & -> & found & _ & ->)
                                  | (-> & -> & docs & ->)]]%get_relevant_chunks_success;
    cbn; split_and!; auto.
Qed.

(** X8: in every mode, each chunk the router returns is a non-empty
    string with no whitespace at its ends. *)
Theorem router_chunks_clean (file_name topic : option str) (k : Z)
    (w w' : W) (res : RetrievalResult) :
  get_relevant_chunks env file_name topic k w = (w', inr res) →
  Forall (λ c, c ≠ [] ∧ strip c = c) (context_chunks res).
Proof.
  intros [(_ & _ & docs & ->) | [(_ & _ & found & Hfound & ->)
                                | (_ & _ & docs & ->)]]%get_relevant_chunks_success;
    cbn.
  - apply stripped_nonempty_clean.
  - eapply Forall_sublist; [| done]. apply RouterFacts.dict_fromkeys_spec.
  - eapply Forall_sublist; [| apply stripped_nonempty_clean].
    destruct (DedupFacts.dedup_loop_sublist (stripped_nonempty docs) []
                default_threshold) as (kept & Hk & Hsub).
    unfold deduplicate_semantic. by rewrite Hk.
Qed.

(** X9: in file-and-topic mode no chunk returned has a similarity ratio
    above 0.9 to a chunk returned before it. *)
Theorem both_mode_chunks_dissimilar (file_name topic : option str) (k : Z)
    (w w' : W) (res : RetrievalResult) (i j : nat) (u c : str) :
  truthy file_name = true → truthy topic = true →
  get_relevant_chunks env file_name topic k w = (w', inr res) →
  i < j →
  context_chunks res !! i = Some u →
  context_chunks res !! j = Some c →
  is_similar c u default_threshold = false.
Proof.
  intros Hf Ht [(_ & ? & _) | [(? & _) | (_ & _ & docs & ->)]]%get_relevant_chunks_success;
    [congruence | congruence |].
  cbn. apply dedup_pairwise.
Qed.

(** X10: a file name that is given and names no note makes the router
    raise [FileNotFoundError], with or without a topic, before anything is
    parsed or stored; [get_chunk] then answers with that message as its
    error and creates no session. *)
Theorem missing_file_reported (name : str) (topic : option str) (k : Z)
    (r : nat) (chunk_cache : gmap (list N) Session) (w : W) :
  name ≠ [] →
  note_exists env w name = false →
  get_relevant_chunks env (Some name) topic k w
  = (w, inl (FileNotFoundError (not_found_msg env name)))
  ∧ (chunk_cache !! cache_key (Some name) topic = None →
     get_chunk env r (Some name) topic chunk_cache w
     = (inr [("error"%string, JStr (not_found_msg env name))], chunk_cache, w)).
Proof.
  intros Hname Hmiss.
  assert (∀ k, get_relevant_chunks env (Some name) topic k w
               = (w, inl (FileNotFoundError (not_found_msg env name)))) as Hget.
  { intros k'. unfold get_relevant_chunks.
    destruct name as [|a name]; [done |]. cbn [truthy negb andb from_option id].
    destruct (truthy topic); cbn [negb andb].
    - unfold bind, build_vectorstore. by rewrite Hmiss.
    - by rewrite Hmiss. }
  split; [apply Hget |].
  intros Hnone. unfold get_chunk. by rewrite Hnone, Hget.
Qed.

End Router.

(** X11: in the output of [deduplicate_semantic] no chunk is similar, at
    the threshold given, to a chunk that stands before it. *)
Theorem dedup_output_dissimilar (chunks : list str) (threshold : float)
    (i j : nat) (u c : str) :
  i < j →
  deduplicate_semantic chunks threshold !! i = Some u →
  deduplicate_semantic chunks threshold !! j = Some c →
  is_similar c u threshold = false.
Proof. apply dedup_pairwise. Qed.

(** X12: [deduplicate_semantic] drops a chunk only when it is similar to
    a chunk it keeps: every chunk of the input is in the output or similar
    to a chunk of the output; and the first chunk is always kept. *)
Theorem dedup_drops_only_similar (chunks : list str) (threshold : float) :
  (∀ c, c ∈ chunks →
        c ∈ deduplicate_semantic chunks threshold
        ∨ ∃ u, u ∈ deduplicate_semantic chunks threshold
               ∧ is_similar c u threshold = true)
  ∧ head (deduplicate_semantic chunks threshold) = head chunks.
Proof. split; [intros c; apply dedup_covers | apply dedup_head]. Qed.

(** *** Runs on the small corpus *)

Lemma router_result_shape_witness :
  let res := {| mode := mode_file_only; file := Some (py "sets.md");
                topic := None; total_chunks := 1;
                context_chunks := [Demo.sets_text] |} in
  total_chunks res = length (context_chunks res)
  ∧ mode res = mode_file_only
  ∧ file res = Some (py "sets.md")
  ∧ RagHelper.topic res = None
  ∧ (truthy (Some (py "sets.md")) = true ∨ truthy None = true).
Proof.
  apply (router_result_shape Demo.env (Some (py "sets.md")) None 5
           Demo.corpus Demo.corpus).
  vm_compute. reflexivity.
Defined.

Lemma router_chunks_clean_witness :
  Forall (λ c, c ≠ [] ∧ strip c = c)
    [py "Sets"; py "A set is an unordered collection."].
Proof.
  apply (router_chunks_clean DemoLines.env (Some (py "sets.md")) (Some (py "sets"))
           5 Demo.corpus Demo.corpus
           {| mode := mode_file_and_topic; file := Some (py "sets.md");
              topic := Some (py "sets"); total_chunks := 2;
              context_chunks :=
                [py "Sets"; py "A set is an unordered collection."] |}).
  vm_compute. reflexivity.
Defined.

Lemma both_mode_chunks_dissimilar_witness :
  is_similar (py "A set is an unordered collection.") (py "Sets")
    default_threshold = false.
Proof.
  apply (both_mode_chunks_dissimilar DemoLines.env (Some (py "sets.md"))
           (Some (py "sets")) 5 Demo.corpus Demo.corpus
           {| mode := mode_file_and_topic; file := Some (py "sets.md");
              topic := Some (py "sets"); total_chunks := 2;
              context_chunks :=
                [py "Sets"; py "A set is an unordered collection."] |}
           0 1).
  - reflexivity.
  - reflexivity.
  - vm_compute. reflexivity.
  - lia.
  - reflexivity.
  - reflexivity.
Defined.

Lemma missing_file_reported_witness :
  get_relevant_chunks Demo.env (Some (py "missing.md")) (Some (py "sets")) 5
    Demo.corpus
  = (Demo.corpus,
     inl (FileNotFoundError (not_found_msg Demo.env (py "missing.md"))))
  ∧ ((∅ : gmap (list N) Session)
       !! cache_key (Some (py "missing.md")) (Some (py "sets")) = None →
     get_chunk Demo.env 0 (Some (py "missing.md")) (Some (py "sets")) ∅
       Demo.corpus
     = (inr [("error"%string, JStr (not_found_msg Demo.env (py "missing.md")))],
        ∅, Demo.corpus)).
Proof.
  apply (missing_file_reported Demo.env (py "missing.md") (Some (py "sets")) 5
           0 ∅ Demo.corpus).
  - discriminate.
  - vm_compute. reflexivity.
Defined.

Lemma dedup_output_dissimilar_witness :
  is_similar (py "A graph has vertices.") (py "A set has elements.")
    default_threshold = false.
Proof.
  apply (dedup_output_dissimilar
           [py "A set has elements."; py "A set has elements!";
            py "A graph has vertices."]
           default_threshold 0 1).
  - lia.
  - vm_compute. reflexivity.
  - vm_compute. reflexivity.
Defined.

End RetrievalFacts.

(** ** How many chunks the chunker returns *)

Module ChunkCountFacts.

Import UnstructuredHelper Notions Measures.

Lemma kept_append_to_last (chunks : list str) (text : str) :
  length (filter (λ c, long_enough c = true) (append_to_last chunks text))
  ≤ S (length (filter (λ c, long_enough c = true) chunks)).
Proof.
  unfold append_to_last. destruct (rev chunks) as [|lst before] eqn:Hrev; [lia |].
  apply (f_equal (@rev _)) in Hrev. rewrite rev_involutive in Hrev. subst chunks.
  cbn [rev]. rewrite !filter_app, !length_app.
  assert (∀ x : str, length (filter (λ c, long_enough c = true) [x]) ≤ 1) as Hone.
  { intros x. rewrite filter_cons, filter_nil. destruct (decide _); cbn; lia. }
  pose proof (Hone (lst ++ newline ++ text)). lia.
Qed.

Lemma nonblank_app (l1 l2 : list Element) :
  nonblank (l1 ++ l2) = nonblank l1 ++ nonblank l2.
Proof. apply filter_app. Qed.

Section Chunker.
Context {W Store : Type} (env : Env W Store).

Lemma step_weight (max_chars : Z) (el : Element) (rest : list Element)
    (st : State) :
  weight (step env max_chars el rest st).1
  + length (nonblank (step env max_chars el rest st).2)
  ≤ weight st + length (nonblank (el :: rest)).
Proof.
  unfold step, nonblank at 2. rewrite filter_cons.
  destruct (stripped_text el) as [|a text] eqn:Htext.
  { rewrite decide_False by (intros H; by apply H). cbn [fst snd]. done. }
  rewrite decide_True by done. cbn [length].
  destruct (ChunkerFacts.lead_in_prefix env (a :: text) rest) as (merged & Hrest & _).
  destruct (lead_in env (a :: text) rest) as [text' next]. cbn [fst snd] in Hrest.
  assert (length (nonblank next) ≤ length (filter (λ el, stripped_text el ≠ []) rest))
    as Hnext.
  { unfold nonblank. rewrite Hrest, filter_app, length_app. lia. }
  destruct (is_fragment env text' && negb (bool_decide (chunks st = []))).
  - cbn [fst snd]. unfold weight. cbn [chunks current_chunk].
    pose proof (kept_append_to_last (chunks st) text'). lia.
  - cbn [fst snd]. unfold weight.
    destruct (must_split max_chars st text' (el_type el)); cbn [chunks current_chunk].
    + rewrite filter_app, length_app, filter_cons, filter_nil.
      destruct (current_chunk st) as [|b cc].
      * rewrite decide_False by (by vm_compute).
        cbn [length]. destruct (_ ++ _ ++ text'); lia.
      * destruct (decide _); cbn [length]; destruct (_ ++ _ ++ text'); lia.
    + destruct (current_chunk st) as [|b cc]; [destruct (_ ++ _ ++ text'); lia |].
      cbn. lia.
Qed.

Lemma run_weight (fuel : nat) (max_chars : Z) (els : list Element) (st : State) :
  weight (run env fuel max_chars els st) ≤ weight st + length (nonblank els).
Proof.
  revert els st. induction fuel as [|fuel IH]; intros els st; [cbn; lia |].
  destruct els as [|el rest]; [cbn; lia |]. cbn [run].
  pose proof (step_weight max_chars el rest st) as Hstep.
  destruct (step env max_chars el rest st) as [st' next]. cbn [fst snd] in Hstep.
  specialize (IH next st'). lia.
Qed.

(** X13: the chunker returns at most as many chunks as there are elements
    with a text that is not blank; when every text is blank, or there is
    no element, it returns no chunk. *)
Theorem chunk_count_bound (elements : list Element) (max_chars : Z) :
  length (chunk_elements env elements max_chars) ≤ length (nonblank elements)
  ∧ (nonblank elements = [] → chunk_elements env elements max_chars = []).
Proof.
  assert (length (chunk_elements env elements max_chars)
          ≤ length (nonblank elements)) as Hle.
  { unfold chunk_elements, unfiltered_chunks.
    pose proof (run_weight (length elements) max_chars elements initial) as Hrun.
    destruct (run env (length elements) max_chars elements initial) as [chs cc ty].
    unfold weight in Hrun. cbn [chunks current_chunk initial] in *.
    rewrite filter_nil in Hrun. cbn [length] in Hrun.
    destruct (strip cc) as [|a c] eqn:Hstrip; [lia |].
    rewrite filter_app, length_app, filter_cons, filter_nil.
    destruct cc as [|b cc]; [by vm_compute in Hstrip |].
    destruct (decide _); cbn [length]; lia. }
  split; [done |].
  intros Hnil. rewrite Hnil in Hle. by apply length_zero_iff_nil, Nat.le_0_r.
Qed.

End Chunker.

End ChunkCountFacts.

(** ** The loader of markdown notes *)

Module LoaderFacts.

Import MarkdownLoader.

Section Loader.
Context {W : Type} (fs : Files W).

Lemma load_loop_spec (w : W) (fnames : list str) (acc notes : list Note) :
  load_loop fs w fnames acc = inr notes
  ↔ ∃ new, notes = acc ++ new
           ∧ Forall2 (loaded fs w) (filter (λ f, endswith f dot_md = true) fnames) new.
Proof.
  revert acc. induction fnames as [|fname rest IH]; intros acc; cbn [load_loop].
  - rewrite filter_nil. split.
    + intros [= <-]. exists []. by rewrite app_nil_r.
    + intros (new & -> & ->%Forall2_nil_inv_l). by rewrite app_nil_r.
  - rewrite filter_cons. destruct (endswith fname dot_md) eqn:Hmd.
    + rewrite decide_True by done.
      destruct (read_text fs w (join_path fs fname)) as [m | content] eqn:Hread.
      * split; [done |].
        intros (new & _ & (n & new' & (c & Hc & _) & _ & _)%Forall2_cons_inv_l).
        congruence.
      * rewrite IH. split.
        -- intros (new & -> & Hnew). exists (note_of fname content :: new).
           rewrite <- app_assoc. split; [done |].
           constructor; [by exists content | done].
        -- intros (new & -> & (n & new' & (c & Hc & ->) & Hnew & ->)%Forall2_cons_inv_l).
           exists new'. rewrite <- app_assoc. split; [| done].
           rewrite Hread in Hc. by injection Hc as <-.
    + rewrite decide_False by done. apply IH.
Qed.

(** X14: [load_notes] returns one note for each [.md] file of the
    listing, in the order of the listing, made from the name of the file
    and the text read from it, and nothing for the other files; it returns
    a list only when every [.md] file could be read, and otherwise raises
    what the reading raised, with no list of the notes read so far. *)
Theorem load_notes_one_per_md (w : W) (fnames : list str) (notes : list Note) :
  listdir fs w = inr fnames →
  load_notes fs w = inr notes
  ↔ Forall2 (loaded fs w) (filter (λ f, endswith f dot_md = true) fnames) notes.
Proof.
  intros Hls. unfold load_notes. rewrite Hls, load_loop_spec. cbn. split.
  - by intros (new & -> & Hnew).
  - intros Hnotes. by exists notes.
Qed.

End Loader.

(** *** The title of a note *)

Lemma replace_plain_name (stem : str) :
  contains dot_md stem = false →
  replace_from dot_md [] 0 (stem ++ dot_md) = stem.
Proof.
  induction stem as [|c t IH]; [reflexivity |].
  cbn [contains]. intros [Hhere Hlater]%orb_false_iff.
  specialize (IH Hlater).
  cbn [app replace_from].
  assert (startswith (c :: t ++ dot_md) dot_md = false) as ->.
  { unfold startswith, str_eqb in *. apply bool_decide_eq_false.
    apply bool_decide_eq_false in Hhere. intros Heq. apply Hhere.
    clear IH Hlater. unfold dot_md in *.
    destruct t as [|c1 [|c2 t']]; cbn in *; rewrite ?take_0 in *;
      [by simplify_eq | by simplify_eq | done]. }
  by rewrite IH.
Qed.

(** X15: the title of a note is the name of its file without the [.md]
    at its end, when the rest of the name has no [.md] in it. *)
Theorem title_of_plain_name (stem content : str) :
  contains dot_md stem = false →
  note_title (note_of (stem ++ dot_md) content) = stem.
Proof. intros Hplain. unfold note_of, replace. cbn. by apply replace_plain_name. Qed.

(** *** Runs on a small directory *)

Lemma load_notes_one_per_md_witness :
  load_notes demo_files () =
    inr [note_of (py "sets.md") (py "# Sets");
         note_of (py "graphs.md") (py "# Graphs")]
  ↔ Forall2 (loaded demo_files ())
      (filter (λ f, endswith f dot_md = true)
         [py "sets.md"; py "cover.png"; py "graphs.md"])
      [note_of (py "sets.md") (py "# Sets");
       note_of (py "graphs.md") (py "# Graphs")].
Proof.
  apply (load_notes_one_per_md demo_files () [py "sets.md"; py "cover.png"; py "graphs.md"]).
  reflexivity.
Defined.

Lemma title_of_plain_name_witness :
  note_title (note_of (py "sets" ++ dot_md) (py "# Sets")) = py "sets".
Proof.
  apply (title_of_plain_name (py "sets") (py "# Sets")).
  vm_compute. reflexivity.
Defined.

End LoaderFacts.

(** ** The scan for NUL bytes *)

Module SampleFacts.

Import Sample.

Section Scan.
Context {W : Type} (disk : Disk W).

Lemma scan_loop_found (w : W) (paths found : list str) :
  (scan_loop disk w paths found).2
  = found ++ filter (λ p, has_nul disk w p = true) paths.
Proof.
  revert found. induction paths as [|p rest IH]; intros found; cbn [scan_loop].
  - by rewrite filter_nil, app_nil_r.
  - destruct (read_bytes disk w p) as [e | data] eqn:Hread.
    + rewrite filter_cons_False by (unfold has_nul; by rewrite Hread).
      specialize (IH found). by destruct (scan_loop disk w rest found).
    + case_bool_decide as Hnul.
      * rewrite filter_cons_True
          by (unfold has_nul; rewrite Hread; by apply bool_decide_eq_true).
        by rewrite IH, <- app_assoc.
      * rewrite filter_cons_False; [apply IH |].
        unfold has_nul. rewrite Hread. by rewrite bool_decide_false.
Qed.

(** X16: the scan returns the files of the listing that can be read and
    hold a NUL byte, in order, a file that cannot be read being skipped;
    and the exit code of [main] is 2 exactly when the target does not
    exist, 1 exactly when it exists and the scan found a file, 0 exactly
    when it exists and the scan found none. *)
Theorem scan_result_and_exit_code (argv : list str) (w : W) :
  let target := resolve disk (match argv with
                              | _ :: arg :: _ => arg
                              | _ => py "."
                              end) in
  let hits := filter (λ p, has_nul disk w p = true) (rglob_py disk w target) in
  (find_files_with_nul disk target w).2
  = (if exists_path disk w target then Some hits else None)
  ∧ ((main disk argv w).2 = 2%Z ↔ exists_path disk w target = false)
  ∧ ((main disk argv w).2 = 1%Z ↔ exists_path disk w target = true ∧ hits ≠ [])
  ∧ ((main disk argv w).2 = 0%Z ↔ exists_path disk w target = true ∧ hits = []).
Proof.
  cbn zeta. unfold main, find_files_with_nul.
  set (target := resolve disk _).
  destruct (exists_path disk w target); cbn [negb].
  - pose proof (scan_loop_found w (rglob_py disk w target) []) as Hfound.
    destruct (scan_loop disk w (rglob_py disk w target) []) as [lines found].
    cbn [fst snd app] in *. rewrite <- Hfound.
    destruct found; cbn [snd]; split_and!; try done; split;
      try done; try (by intros [_ ?]); by intros [? _].
  - cbn [snd]. split_and!; try done; split; try done; by intros [? _].
Qed.

End Scan.

End SampleFacts.

(** ** The empty string as a parameter *)

Module EmptyParameterFacts.

Import RagHelper Main Echo.

Section Handlers.
Context {W Store : Type} (env : Env W Store).

Lemma query_empty_file (r : nat) (topic : option str)
    (chunk_cache : gmap (list N) Session) (w : W) :
  read_outcome (get_chunk env r (Some []) topic chunk_cache w)
  = read_outcome (get_chunk env r None topic chunk_cache w)
  ∧ (is_Some (chunk_cache !! cache_key None topic) →
     get_chunk env r (Some []) topic chunk_cache w
     = get_chunk env r None topic chunk_cache w).
Proof.
  unfold get_chunk.
  change (cache_key (Some []) topic) with (cache_key None topic).
  destruct (chunk_cache !! cache_key None topic) as [s |] eqn:Hs; [done |].
  split; [| by intros [? ?]].
  rewrite (RouterFacts.get_relevant_chunks_falsy_file env (Some []) topic) by done.
  destruct (get_relevant_chunks env None topic 5 w) as [w' [e | result]]; [done |].
  destruct (context_chunks result) as [|c0 rest]; [done |].
  destruct (index (choice r c0 rest) (c0 :: rest)) as [i |];
    unfold read_outcome; cbn [fst snd sum_map];
    rewrite ?alter_insert_eq, !fmap_insert; reflexivity.
Qed.

Lemma query_empty_topic (r : nat) (file : option str)
    (chunk_cache : gmap (list N) Session) (w : W) :
  read_outcome (get_chunk env r file (Some []) chunk_cache w)
  = read_outcome (get_chunk env r file None chunk_cache w)
  ∧ (is_Some (chunk_cache !! cache_key file None) →
     get_chunk env r file (Some []) chunk_cache w
     = get_chunk env r file None chunk_cache w).
Proof.
  unfold get_chunk.
  change (cache_key file (Some [])) with (cache_key file None).
  destruct (chunk_cache !! cache_key file None) as [s |] eqn:Hs; [done |].
  split; [| by intros [? ?]].
  rewrite (RouterFacts.get_relevant_chunks_falsy_topic env file (Some [])) by done.
  destruct (get_relevant_chunks env file None 5 w) as [w' [e | result]]; [done |].
  destruct (context_chunks result) as [|c0 rest]; [done |].
  destruct (index (choice r c0 rest) (c0 :: rest)) as [i |];
    unfold read_outcome; cbn [fst snd sum_map];
    rewrite ?alter_insert_eq, !fmap_insert; reflexivity.
Qed.

End Handlers.

(** C10, as the code has it.  An empty string is read as an absent
    parameter by the key, by [clear_cache] and [stop_session] and by the
    router, which answer the same for both.  [get_chunk] echoes and stores
    the parameter as it was given: with one parameter empty it gives what
    it gives with that parameter absent once [""] is read as [null] in the
    [file] and [topic] of the response and of the session, and the very
    same on a cache hit.  With both parameters empty it gives what it gives
    with neither, which is the error of the invalid query when no session
    is stored under that key. *)
Theorem empty_string_read_as_absent {W Store : Type} (env : Env W Store) :
  (∀ topic, cache_key (Some []) topic = cache_key None topic)
  ∧ (∀ file, cache_key file (Some []) = cache_key file None)
  ∧ (∀ topic chunk_cache,
        clear_cache (Some []) topic chunk_cache = clear_cache None topic chunk_cache
        ∧ stop_session (Some []) topic chunk_cache
          = stop_session None topic chunk_cache)
  ∧ (∀ file chunk_cache,
        clear_cache file (Some []) chunk_cache = clear_cache file None chunk_cache
        ∧ stop_session file (Some []) chunk_cache
          = stop_session file None chunk_cache)
  ∧ (∀ topic k w,
        get_relevant_chunks env (Some []) topic k w
        = get_relevant_chunks env None topic k w)
  ∧ (∀ file k w,
        get_relevant_chunks env file (Some []) k w
        = get_relevant_chunks env file None k w)
  ∧ (∀ k w,
        get_relevant_chunks env (Some []) (Some []) k w
        = (w, inl (ValueError invalid_query_msg)))
  ∧ (∀ r topic chunk_cache w,
        read_outcome (get_chunk env r (Some []) topic chunk_cache w)
        = read_outcome (get_chunk env r None topic chunk_cache w)
        ∧ (is_Some (chunk_cache !! cache_key None topic) →
           get_chunk env r (Some []) topic chunk_cache w
           = get_chunk env r None topic chunk_cache w))
  ∧ (∀ r file chunk_cache w,
        read_outcome (get_chunk env r file (Some []) chunk_cache w)
        = read_outcome (get_chunk env r file None chunk_cache w)
        ∧ (is_Some (chunk_cache !! cache_key file None) →
           get_chunk env r file (Some []) chunk_cache w
           = get_chunk env r file None chunk_cache w))
  ∧ (∀ r chunk_cache w,
        get_chunk env r (Some []) (Some []) chunk_cache w
        = get_chunk env r None None chunk_cache w)
  ∧ (∀ r chunk_cache w,
        chunk_cache !! cache_key None None = None →
        get_chunk env r (Some []) (Some []) chunk_cache w
        = (inr [("error"%string, JStr invalid_query_msg)], chunk_cache, w)).
Proof.
  split_and!; try done.
  - intros topic k w. by apply RouterFacts.get_relevant_chunks_falsy_file.
  - intros file k w. by apply RouterFacts.get_relevant_chunks_falsy_topic.
  - intros r topic chunk_cache w. apply query_empty_file.
  - intros r file chunk_cache w. apply query_empty_topic.
  - intros r chunk_cache w Hnone. unfold get_chunk.
    change (cache_key (Some []) (Some [])) with (cache_key None None).
    by rewrite Hnone.
Qed.

(** C10 as stated fails.  A query for a file with the topic [""] answers
    and stores the topic [""], where the same query without topic answers
    and stores [null]; and after a topic-only query for the topic [none], a
    query with two empty strings is served a chunk of that session instead
    of failing as an invalid query. *)
Lemma empty_parameter_not_identical :
  let key := cache_key (Some (py "sets.md")) None in
  let with_empty :=
    get_chunk Demo.env 0 (Some (py "sets.md")) (Some []) ∅ Demo.corpus in
  let with_none :=
    get_chunk Demo.env 0 (Some (py "sets.md")) None ∅ Demo.corpus in
  let first := get_chunk Demo.env 0 None (Some (py "none")) ∅ Demo.corpus in
  let second := get_chunk Demo.env 0 (Some []) (Some []) first.1.2 first.2 in
  sum_map id (resp_get "topic") with_empty.1.1 = inr (Some (JStr []))
  ∧ sum_map id (resp_get "topic") with_none.1.1 = inr (Some JNone)
  ∧ s_topic <$> (with_empty.1.2 !! key) = Some (Some [])
  ∧ s_topic <$> (with_none.1.2 !! key) = Some None
  ∧ second.1.1
    = inr [("mode"%string, JStr mode_topic_only);
           ("file"%string, JNone);
           ("topic"%string, JStr (py "none"));
           ("chunk_index"%string, JInt 2);
           ("chunk"%string, JStr Demo.graphs_text);
           ("remaining"%string, JInt 0);
           ("message"%string, JStr msg_served)].
Proof. vm_compute. done. Qed.

End EmptyParameterFacts.
